(** * AI-Log-Analyzer: the log parsing and analysis engine

    A shallow embedding of [log_processor.py] (class [LogProcessor]) and
    theorems about it.

    Text.  A Python [str] is modelled as a list of 8-bit characters read as
    the code points U+0000 to U+00FF.  The character classes [\s], [\d],
    [\w] and the case maps are Python's on that range ([str.isspace],
    decimal digits, [str.isalnum] plus underscore, [str.lower]).

    Regular expressions.  The twelve patterns of [LogProcessor.patterns] and
    the local pattern of [_extract_exception] are embedded as terms of a
    small regular-expression type and run by a backtracking matcher with
    the search order of Python's [re.search]: leftmost start, alternatives
    left to right, greedy repetition. *)

From Stdlib Require Import Ascii String.
From Stdlib Require Import List Bool Arith Lia ZArith NArith.
From Stdlib Require Import Sorted Permutation.
From Stdlib Require Import DecimalString.
Import ListNotations.

Set Implicit Arguments.

(** ** Characters and strings *)

Definition str := list ascii.

Definition code (c : ascii) : N := N_of_ascii c.

Definition between (lo hi : N) (c : ascii) : bool :=
  (lo <=? code c)%N && (code c <=? hi)%N.

Definition is_code (n : N) (c : ascii) : bool := (code c =? n)%N.

(** [str.isspace], which is also the class [\s] of a [str] pattern. *)
Definition isspace (c : ascii) : bool :=
  between 9 13 c || between 28 32 c || is_code 133 c || is_code 160 c.

(** The class [\d]: the decimal digits. *)
Definition isdigit (c : ascii) : bool := between 48 57 c.

(** The class [\w]: alphanumeric characters and the underscore. *)
Definition isword (c : ascii) : bool :=
  isdigit c || between 65 90 c || between 97 122 c || is_code 95 c
  || is_code 170 c || is_code 178 c || is_code 179 c || is_code 181 c
  || is_code 185 c || is_code 186 c || between 188 190 c
  || (between 192 255 c && negb (is_code 215 c) && negb (is_code 247 c)).

Definition has_lowercase (c : ascii) : bool :=
  between 65 90 c || (between 192 222 c && negb (is_code 215 c)).

Definition has_uppercase (c : ascii) : bool :=
  between 97 122 c || (between 224 254 c && negb (is_code 247 c)).

(** [str.lower] and [str.upper] on one character.  The three characters of
    the range whose upper case lies outside it are left unchanged by
    [upper]; the engine upper-cases only level tokens, which are made of
    the letters A to Z. *)
Definition lower (c : ascii) : ascii :=
  if has_lowercase c then ascii_of_N (code c + 32) else c.

Definition upper (c : ascii) : ascii :=
  if has_uppercase c then ascii_of_N (code c - 32) else c.

Definition str_lower (s : str) : str := map lower s.
Definition str_upper (s : str) : str := map upper s.

Definition chr_eqb (a b : ascii) : bool := Ascii.eqb a b.

Fixpoint str_eqb (a b : str) : bool :=
  match a, b with
  | [], [] => true
  | x :: a', y :: b' => chr_eqb x y && str_eqb a' b'
  | _, _ => false
  end.

(** String literals of the source. *)
Definition lit (s : string) : str := list_ascii_of_string s.

Definition LF : ascii := ascii_of_N 10.

(** [s[i:j]] *)
Definition slice (s : str) (i j : nat) : str := firstn (j - i) (skipn i s).

(** [a.startswith(b)] and [b in a]. *)
Fixpoint starts_with (sub s : str) : bool :=
  match sub, s with
  | [], _ => true
  | x :: sub', y :: s' => chr_eqb x y && starts_with sub' s'
  | _ :: _, [] => false
  end.

Fixpoint contains (sub s : str) : bool :=
  starts_with sub s ||
  match s with
  | [] => false
  | _ :: s' => contains sub s'
  end.

(** [str.strip()] with no argument. *)
Fixpoint lstrip (s : str) : str :=
  match s with
  | [] => []
  | c :: s' => if isspace c then lstrip s' else s
  end.

Definition strip (s : str) : str := rev (lstrip (rev (lstrip s))).

(** [content.split('\n')] *)
Fixpoint split_lines (s : str) : list str :=
  match s with
  | [] => [[]]
  | c :: s' =>
      if chr_eqb c LF then [] :: split_lines s'
      else match split_lines s' with
           | l :: ls => (c :: l) :: ls
           | [] => [[c]]
           end
  end.

(** [int(s)] on a string of decimal digits. *)
Definition int_of_digits (s : str) : Z :=
  fold_left (fun acc c => (acc * 10 + (Z.of_N (code c) - 48))%Z) s 0%Z.

(** Comparison of two strings by code points, as [<] on [str]. *)
Fixpoint str_ltb (a b : str) : bool :=
  match a, b with
  | _, [] => false
  | [], _ :: _ => true
  | x :: a', y :: b' =>
      if (code x <? code y)%N then true
      else if (code y <? code x)%N then false
      else str_ltb a' b'
  end.

(** Truth value of a string, an integer and an optional value. *)
Definition truthy_str (s : str) : bool :=
  match s with [] => false | _ :: _ => true end.

Definition truthy_int (z : Z) : bool := negb (z =? 0)%Z.

(** ** Dictionaries

    A Python [dict] (and [defaultdict]) keeps its keys in insertion order;
    it is modelled as an association list with one pair per key. *)

Section Dict.

Variables K V : Type.
Variable eqb : K -> K -> bool.

Definition dict := list (K * V).

Fixpoint dict_get (k : K) (d : dict) : option V :=
  match d with
  | [] => None
  | (k', v) :: d' => if eqb k' k then Some v else dict_get k d'
  end.

(** [d[k] = f(d.get(k))]: an existing key keeps its place, a new key goes
    last. *)
Fixpoint dict_upd (k : K) (f : option V -> V) (d : dict) : dict :=
  match d with
  | [] => [(k, f None)]
  | (k', v) :: d' =>
      if eqb k' k then (k', f (Some v)) :: d'
      else (k', v) :: dict_upd k f d'
  end.

Definition dict_set (k : K) (v : V) (d : dict) : dict :=
  dict_upd k (fun _ => v) d.

Definition dict_keys (d : dict) : list K := map fst d.
Definition dict_values (d : dict) : list V := map snd d.

End Dict.

(** [counter[k] += 1] on a [defaultdict(int)]. *)
Definition count_up (K : Type) (eqb : K -> K -> bool) (k : K)
    (d : dict K nat) : dict K nat :=
  dict_upd eqb k (fun o => match o with Some n => n + 1 | None => 0 + 1 end) d.

(** ** Regular expressions *)

(** Items of a bracketed class. *)
Inductive citem : Type :=
| CChar (c : ascii)
| CRange (a b : ascii)
| CDigit
| CSpace
| CWord.

(** One-character patterns: a literal or a class.  [\d], [\s] and [\w]
    outside brackets are the one-item classes. *)
Inductive atom : Type :=
| Lit (c : ascii)
| Cls (neg : bool) (items : list citem).

(** Patterns.  Every repetition in the source applies to a one-character
    pattern, except the fixed count [{3}] of the IPv4 pattern, which is
    written out with [times]. *)
Inductive regex : Type :=
| One (a : atom)
| Bnd
| Seq (r1 r2 : regex)
| Alt (r1 r2 : regex)
| Rep (a : atom) (lo : nat) (hi : option nat)
| Grp (n : nat) (r : regex)
| Empty.

Fixpoint seqs (rs : list regex) : regex :=
  match rs with
  | [] => Empty
  | r :: rs' => Seq r (seqs rs')
  end.

Fixpoint alts (r : regex) (rs : list regex) : regex :=
  match rs with
  | [] => r
  | r' :: rs' => Alt r (alts r' rs')
  end.

Fixpoint times (n : nat) (r : regex) : regex :=
  match n with
  | 0 => Empty
  | S n' => Seq r (times n' r)
  end.

(** The characters of a literal word, in sequence. *)
Fixpoint word (w : str) : regex :=
  match w with
  | [] => Empty
  | c :: w' => Seq (One (Lit c)) (word w')
  end.

Definition wd (s : string) : regex := word (lit s).

Definition ch (s : string) : ascii :=
  match s with
  | String c _ => c
  | EmptyString => Ascii.zero
  end.

Definition digit : atom := Cls false [CDigit].
Definition space : atom := Cls false [CSpace].
Definition wordch : atom := Cls false [CWord].
Definition plus (a : atom) : regex := Rep a 1 None.
Definition star (a : atom) : regex := Rep a 0 None.
Definition opt (a : atom) : regex := Rep a 0 (Some 1).
Definition exactly (n : nat) (a : atom) : regex := Rep a n (Some n).

(** Capture groups: group number to the span it matched last. *)
Definition caps := list (nat * (nat * nat)).

Fixpoint cap_get (n : nat) (c : caps) : option (nat * nat) :=
  match c with
  | [] => None
  | (m, sp) :: c' => if Nat.eqb m n then Some sp else cap_get n c'
  end.

(** A match object: the span of the whole match and the groups. *)
Record match_obj : Type := MatchObj {
  m_start : nat;
  m_end : nat;
  m_caps : caps
}.

Section Matcher.

(** [re.IGNORECASE] and the subject string. *)
Variable ic : bool.
Variable s : str.

Definition item_has (it : citem) (x : ascii) : bool :=
  match it with
  | CChar c => chr_eqb x c
  | CRange a b => (code a <=? code x)%N && (code x <=? code b)%N
  | CDigit => isdigit x
  | CSpace => isspace x
  | CWord => isword x
  end.

(** Under [re.IGNORECASE] a character is in a class when one of its case
    variants is. *)
Definition item_ok (it : citem) (x : ascii) : bool :=
  if ic then item_has it x || item_has it (lower x) || item_has it (upper x)
  else item_has it x.

Definition accepts (a : atom) (x : ascii) : bool :=
  match a with
  | Lit c => if ic then chr_eqb (lower x) (lower c) else chr_eqb x c
  | Cls neg items => xorb neg (existsb (fun it => item_ok it x) items)
  end.

Definition accepts_at (a : atom) (i : nat) : bool :=
  match nth_error s i with
  | Some x => accepts a x
  | None => false
  end.

Definition word_at (i : nat) : bool :=
  match nth_error s i with
  | Some x => isword x
  | None => false
  end.

(** [\b]: exactly one side of the position is a word character. *)
Definition boundary (i : nat) : bool :=
  xorb (match i with 0 => false | S p => word_at p end) (word_at i).

Definition under (hi : option nat) (n : nat) : bool :=
  match hi with
  | Some h => n <? h
  | None => true
  end.

Section Run.
Variable A : Type.

(** Greedy repetition of a one-character pattern: take one more
    character while allowed, and fall back to stopping here.  [n] is
    the number of characters taken so far; [fuel] bounds the characters
    left in the subject. *)
Fixpoint rep_loop (a : atom) (lo : nat) (hi : option nat)
    (fuel n i : nat) (k : nat -> option A) : option A :=
  let stop := if lo <=? n then k i else None in
  match fuel with
  | 0 => stop
  | S fuel' =>
      if under hi n && accepts_at a i then
        match rep_loop a lo hi fuel' (S n) (S i) k with
        | Some x => Some x
        | None => stop
        end
      else stop
  end.

(** The backtracking matcher, in continuation-passing style: [k] is
    what remains to be matched after [r]. *)
Fixpoint run (r : regex) (i : nat) (c : caps)
    (k : nat -> caps -> option A) : option A :=
  match r with
  | Empty => k i c
  | One a => if accepts_at a i then k (S i) c else None
  | Bnd => if boundary i then k i c else None
  | Seq r1 r2 => run r1 i c (fun j c' => run r2 j c' k)
  | Alt r1 r2 =>
      match run r1 i c k with
      | Some x => Some x
      | None => run r2 i c k
      end
  | Rep a lo hi =>
      rep_loop a lo hi (length s - i) 0 i (fun j => k j c)
  | Grp n r' => run r' i c (fun j c' => k j ((n, (i, j)) :: c'))
  end.
End Run.

Definition match_at (r : regex) (i : nat) : option match_obj :=
  run r i [] (fun j c => Some (MatchObj i j c)).

(** Try the start positions [i], [i+1], ... in turn. *)
Fixpoint search_from (r : regex) (fuel i : nat) : option match_obj :=
  match match_at r i with
  | Some m => Some m
  | None =>
      match fuel with
      | 0 => None
      | S fuel' => search_from r fuel' (S i)
      end
  end.

Definition search (r : regex) : option match_obj :=
  search_from r (length s) 0.

End Matcher.

(** [re.search(pattern, s, flags)] *)
Definition re_search (r : regex) (s : str) (ic : bool) : option match_obj :=
  search ic s r.

(** [match.group(0)] and [match.group(n)].  In every pattern of the engine
    a group that is read takes part in every match ([group_takes_part]
    below), so the value [None] of a group that did not take part never
    arises; it is rendered as the empty string, which has the same truth
    value. *)
Definition group0 (s : str) (m : match_obj) : str :=
  slice s (m_start m) (m_end m).

Definition group (s : str) (m : match_obj) (n : nat) : str :=
  match cap_get n (m_caps m) with
  | Some (i, j) => slice s i j
  | None => []
  end.

(** ** The patterns of [LogProcessor.patterns] *)

Module patterns.

(* r"\d{4}-\d{2}-\d{2}[\sT]\d{2}:\d{2}:\d{2}" *)
Definition timestamp : regex :=
  seqs [exactly 4 digit; One (Lit (ch "-")); exactly 2 digit;
        One (Lit (ch "-")); exactly 2 digit;
        One (Cls false [CSpace; CChar (ch "T")]);
        exactly 2 digit; One (Lit (ch ":")); exactly 2 digit;
        One (Lit (ch ":")); exactly 2 digit].

(* r"\b(DEBUG|INFO|WARN|WARNING|ERROR|FATAL|CRITICAL)\b" *)
Definition log_level : regex :=
  seqs [Bnd;
        Grp 1 (alts (wd "DEBUG") [wd "INFO"; wd "WARN"; wd "WARNING";
                                  wd "ERROR"; wd "FATAL"; wd "CRITICAL"]);
        Bnd].

(* r"(GET|POST|PUT|DELETE|PATCH)\s+" and the group r"(/[^\s]*" *)
Definition api_endpoint : regex :=
  seqs [Grp 1 (alts (wd "GET") [wd "POST"; wd "PUT"; wd "DELETE"; wd "PATCH"]);
        plus space;
        Grp 2 (Seq (One (Lit (ch "/"))) (star (Cls true [CSpace])))].

(* r"\b(1\d{2}|2\d{2}|3\d{2}|4\d{2}|5\d{2})\b" *)
Definition status_code : regex :=
  seqs [Bnd;
        Grp 1 (alts (Seq (One (Lit (ch "1"))) (exactly 2 digit))
                 [Seq (One (Lit (ch "2"))) (exactly 2 digit);
                  Seq (One (Lit (ch "3"))) (exactly 2 digit);
                  Seq (One (Lit (ch "4"))) (exactly 2 digit);
                  Seq (One (Lit (ch "5"))) (exactly 2 digit)]);
        Bnd].

Definition sep : atom := Cls false [CChar (ch "="); CChar (ch ":"); CSpace].
Definition dash : atom := Cls false [CChar (ch "_"); CChar (ch "-")].
Definition token : atom := Cls true [CSpace; CChar (ch ",")].
Definition idchar : atom :=
  Cls false [CRange (ch "a") (ch "z"); CRange (ch "A") (ch "Z");
             CRange (ch "0") (ch "9"); CChar (ch "-")].

(* r"user[_-]?id[=:\s]+([^\s,]+)" *)
Definition user_id : regex :=
  seqs [wd "user"; opt dash; wd "id"; plus sep; Grp 1 (plus token)].

(* r"username[=:\s]+([^\s,]+)" *)
Definition username : regex :=
  seqs [wd "username"; plus sep; Grp 1 (plus token)].

(* r"\b[A-Za-z0-9._%+-]+@[A-Za-z0-9.-]+\.[A-Z|a-z]{2,}\b" *)
Definition email : regex :=
  seqs [Bnd;
        plus (Cls false [CRange (ch "A") (ch "Z"); CRange (ch "a") (ch "z");
                         CRange (ch "0") (ch "9"); CChar (ch ".");
                         CChar (ch "_"); CChar (ch "%"); CChar (ch "+");
                         CChar (ch "-")]);
        One (Lit (ch "@"));
        plus (Cls false [CRange (ch "A") (ch "Z"); CRange (ch "a") (ch "z");
                         CRange (ch "0") (ch "9"); CChar (ch ".");
                         CChar (ch "-")]);
        One (Lit (ch "."));
        Rep (Cls false [CRange (ch "A") (ch "Z"); CChar (ch "|");
                        CRange (ch "a") (ch "z")]) 2 None;
        Bnd].

(* r"trace[_-]?id[=:\s]+([a-zA-Z0-9-]+)" *)
Definition trace_id : regex :=
  seqs [wd "trace"; opt dash; wd "id"; plus sep; Grp 1 (plus idchar)].

(* r"request[_-]?id[=:\s]+([a-zA-Z0-9-]+)" *)
Definition request_id : regex :=
  seqs [wd "request"; opt dash; wd "id"; plus sep; Grp 1 (plus idchar)].

(* r"session[_-]?id[=:\s]+([a-zA-Z0-9-]+)" *)
Definition session_id : regex :=
  seqs [wd "session"; opt dash; wd "id"; plus sep; Grp 1 (plus idchar)].

(* r"\b(?:\d{1,3}\.){3}\d{1,3}\b" *)
Definition ip_address : regex :=
  seqs [Bnd;
        times 3 (Seq (Rep digit 1 (Some 3)) (One (Lit (ch "."))));
        Rep digit 1 (Some 3);
        Bnd].

(* r"(Exception|Error|Traceback)" *)
Definition exception : regex :=
  Grp 1 (alts (wd "Exception") [wd "Error"; wd "Traceback"]).

End patterns.

(* r"(\w+Exception|\w+Error)", local to _extract_exception *)
Definition exception_pattern : regex :=
  Grp 1 (Alt (Seq (plus wordch) (wd "Exception"))
             (Seq (plus wordch) (wd "Error"))).

(** ** Log entries *)

(** The keys of the [identifiers] dictionary. *)
Inductive kind : Type :=
| user_id | username | email | trace_id | request_id | session_id | ip_address.

Definition kind_eqb (a b : kind) : bool :=
  match a, b with
  | user_id, user_id | username, username | email, email
  | trace_id, trace_id | request_id, request_id
  | session_id, session_id | ip_address, ip_address => true
  | _, _ => false
  end.

Definition pattern_of (k : kind) : regex :=
  match k with
  | user_id => patterns.user_id
  | username => patterns.username
  | email => patterns.email
  | trace_id => patterns.trace_id
  | request_id => patterns.request_id
  | session_id => patterns.session_id
  | ip_address => patterns.ip_address
  end.

(** The dictionary [{'method': ..., 'endpoint': ...}]. *)
Record ApiCall : Type := mkApi {
  method : str;
  endpoint : str
}.

Record LogEntry : Type := mkEntry {
  line_number : nat;
  raw : str;
  timestamp : option str;
  level : str;
  api : option ApiCall;
  status_code : option Z;
  identifiers : list (kind * str);
  has_error : bool;
  exception_type : option str
}.

(** *** Field extraction *)

Definition _extract_timestamp (line : str) : option str :=
  match re_search patterns.timestamp line false with
  | Some m => Some (group0 line m)
  | None => None
  end.

Definition _extract_log_level (line : str) : str :=
  match re_search patterns.log_level line true with
  | Some m => str_upper (group line m 1)
  | None => lit "INFO"
  end.

Definition _extract_api_call (line : str) : option ApiCall :=
  match re_search patterns.api_endpoint line false with
  | Some m => Some (mkApi (group line m 1) (group line m 2))
  | None => None
  end.

Definition _extract_status_code (line : str) : option Z :=
  match re_search patterns.status_code line false with
  | Some m =>
      let code := int_of_digits (group line m 1) in
      if (100 <=? code)%Z && (code <=? 599)%Z then Some code else None
  | None => None
  end.

Definition identifier_keys : list kind :=
  [user_id; username; email; trace_id; request_id; session_id; ip_address].

Definition captured (key : kind) : bool :=
  match key with
  | user_id | username | trace_id | request_id | session_id => true
  | email | ip_address => false
  end.

Definition _extract_identifiers (line : str) : list (kind * str) :=
  fold_left
    (fun ids key =>
       match re_search (pattern_of key) line true with
       | Some m =>
           if captured key then dict_set kind_eqb key (group line m 1) ids
           else dict_set kind_eqb key (group0 line m) ids
       | None => ids
       end)
    identifier_keys [].

Definition _has_error (line : str) : bool :=
  (match re_search patterns.exception line true with
   | Some _ => true
   | None => false
   end)
  || contains (lit "error") (str_lower line)
  || contains (lit "exception") (str_lower line).

Definition _extract_exception (line : str) : option str :=
  match re_search exception_pattern line false with
  | Some m => Some (group line m 1)
  | None => None
  end.

(** The entry built for line [idx] (counted from 0) of the document. *)
Definition make_entry (idx : nat) (line : str) : LogEntry :=
  {| line_number := idx + 1;
     raw := line;
     timestamp := _extract_timestamp line;
     level := _extract_log_level line;
     api := _extract_api_call line;
     status_code := _extract_status_code line;
     identifiers := _extract_identifiers line;
     has_error := _has_error line;
     exception_type := _extract_exception line |}.

(** ** The engine *)

Record LogProcessor : Type := mkLogProcessor {
  logs : list LogEntry;
  user_sessions : dict str (list LogEntry);
  errors : list LogEntry;
  api_calls : list LogEntry
}.

Definition __init__ : LogProcessor := mkLogProcessor [] [] [] [].

(** [self.user_sessions[value].append(entry)] on the [defaultdict(list)]. *)
Definition sessions_append (value : str) (e : LogEntry)
    (m : dict str (list LogEntry)) : dict str (list LogEntry) :=
  dict_upd str_eqb value
    (fun o => match o with Some b => b ++ [e] | None => [] ++ [e] end) m.

(** The bookkeeping of one entry in the loop of [parse_logs]. *)
Definition track (self : LogProcessor) (e : LogEntry) : LogProcessor :=
  let errors' := if has_error e then errors self ++ [e] else errors self in
  let api_calls' :=
    match api e with
    | Some _ => api_calls self ++ [e]
    | None => api_calls self
    end in
  let sessions' :=
    fold_left
      (fun m kv =>
         if truthy_str (snd kv) then sessions_append (snd kv) e m else m)
      (identifiers e) (user_sessions self) in
  mkLogProcessor (logs self) sessions' errors' api_calls'.

(** The loop [for idx, line in enumerate(lines)], from index [idx] on. *)
Fixpoint parse_loop (self : LogProcessor) (parsed_logs : list LogEntry)
    (idx : nat) (lines : list str) : LogProcessor * list LogEntry :=
  match lines with
  | [] => (self, parsed_logs)
  | line :: rest =>
      if negb (truthy_str (strip line)) then
        parse_loop self parsed_logs (S idx) rest
      else
        let log_entry := make_entry idx line in
        parse_loop (track self log_entry) (parsed_logs ++ [log_entry])
          (S idx) rest
  end.

(** [parse_logs] returns the new entries and leaves the engine updated. *)
Definition parse_logs (self : LogProcessor) (content : str)
    : LogProcessor * list LogEntry :=
  let lines := split_lines content in
  let (self', parsed_logs) := parse_loop self [] 0 lines in
  (mkLogProcessor parsed_logs (user_sessions self') (errors self')
     (api_calls self'),
   parsed_logs).

(** ** Journeys *)

Definition value_matches (user_identifier : str) (identifier_value : str)
    : bool :=
  truthy_str identifier_value
  && contains (str_lower user_identifier) (str_lower identifier_value).

(** The innermost loop with its [break]: does some identifier value of the
    entry match? *)
Definition entry_matches (user_identifier : str) (log : LogEntry) : bool :=
  existsb (fun kv => value_matches user_identifier (snd kv))
    (identifiers log).

(** [list.sort(key=...)] is a stable sort that compares keys with [<]; a
    stable sort has one possible result, computed here by insertion. *)
Section Sort.

Variable T : Type.
Variable key : T -> str.

Fixpoint insert_sorted (x : T) (l : list T) : list T :=
  match l with
  | [] => [x]
  | y :: l' =>
      if str_ltb (key y) (key x) then y :: insert_sorted x l'
      else x :: y :: l'
  end.

Fixpoint sort_by (l : list T) : list T :=
  match l with
  | [] => []
  | x :: l' => insert_sorted x (sort_by l')
  end.

End Sort.

(** [x['timestamp'] or ''] *)
Definition sort_key (x : LogEntry) : str :=
  match timestamp x with
  | Some t => if truthy_str t then t else []
  | None => []
  end.

(** The entries collected before sorting. *)
Definition collect_journey (self : LogProcessor) (user_identifier : str)
    : list LogEntry :=
  flat_map (fun logs => filter (entry_matches user_identifier) logs)
    (dict_values (user_sessions self)).

Definition get_user_journey (self : LogProcessor) (user_identifier : str)
    : list LogEntry :=
  sort_by sort_key (collect_journey self user_identifier).

Module ErrorSequence.
Record t : Type := mk {
  total_requests : nat;
  successful_requests : list LogEntry;
  failed_requests : list LogEntry;
  first_error : option LogEntry;
  last_successful_api : option ApiCall;
  error_apis : list ApiCall
}.
End ErrorSequence.

(** [log['status_code'] and log['status_code'] >= 400] *)
Definition status_ge_400 (log : LogEntry) : bool :=
  match status_code log with
  | Some c => truthy_int c && (400 <=? c)%Z
  | None => false
  end.

(** [log['status_code'] and log['status_code'] < 400] *)
Definition status_lt_400 (log : LogEntry) : bool :=
  match status_code log with
  | Some c => truthy_int c && (c <? 400)%Z
  | None => false
  end.

Definition sequence_step (result : ErrorSequence.t) (log : LogEntry)
    : ErrorSequence.t :=
  let (total, ok, ko, first, last_api, eapis) := result in
  if has_error log || status_ge_400 log then
    ErrorSequence.mk total ok (ko ++ [log])
      (match first with None => Some log | Some _ => first end)
      last_api
      (match api log with Some a => eapis ++ [a] | None => eapis end)
  else
    ErrorSequence.mk total (ok ++ [log]) ko first
      (match api log with Some a => Some a | None => last_api end)
      eapis.

Definition find_error_sequence (self : LogProcessor) (user_identifier : str)
    : option ErrorSequence.t :=
  let user_logs := get_user_journey self user_identifier in
  match user_logs with
  | [] => None
  | _ :: _ =>
      Some (fold_left sequence_step user_logs
              (ErrorSequence.mk (length user_logs) [] [] None None []))
  end.

(** ** Aggregates *)

Module Statistics.
Record t : Type := mk {
  total_logs : nat;
  errors : nat;
  warnings : nat;
  api_calls : nat;
  unique_users : nat;
  status_codes : dict Z nat
}.
End Statistics.

Definition get_statistics (self : LogProcessor) : Statistics.t :=
  Statistics.mk
    (length (logs self))
    (length (filter (fun l => has_error l) (logs self)))
    (length (filter (fun l => str_eqb (level l) (lit "WARN")) (logs self)))
    (length (api_calls self))
    (length (user_sessions self))
    (fold_left
       (fun codes log =>
          match status_code log with
          | Some c => if truthy_int c then count_up Z.eqb c codes else codes
          | None => codes
          end)
       (logs self) []).

Definition get_all_users (self : LogProcessor) : list str :=
  dict_keys (user_sessions self).

Module ApiStats.
Record t : Type := mk {
  total_calls : nat;
  successful : nat;
  failed : nat;
  errors : list str
}.
End ApiStats.

(** The default value of the [defaultdict] of [get_api_summary]. *)
Definition api_stats_default : ApiStats.t := ApiStats.mk 0 0 0 [].

(** The string [f"{method} {endpoint}"]. *)
Definition endpoint_key (a : ApiCall) : str :=
  method a ++ lit " " ++ endpoint a.

(** [if log['exception_type']] *)
Definition truthy_exception (log : LogEntry) : option str :=
  match exception_type log with
  | Some t => if truthy_str t then Some t else None
  | None => None
  end.

(** One turn of the loop of [get_api_summary] on the entry of its key. *)
Definition api_stats_step (log : LogEntry) (o : option ApiStats.t)
    : ApiStats.t :=
  let (total, ok, ko, errs) :=
    match o with Some st => st | None => api_stats_default end in
  if status_lt_400 log then ApiStats.mk (total + 1) (ok + 1) ko errs
  else if has_error log || status_ge_400 log then
    ApiStats.mk (total + 1) ok (ko + 1)
      (match truthy_exception log with
       | Some t => errs ++ [t]
       | None => errs
       end)
  else ApiStats.mk (total + 1) ok ko errs.

Definition get_api_summary (self : LogProcessor) : dict str ApiStats.t :=
  fold_left
    (fun api_stats log =>
       match api log with
       | Some a => dict_upd str_eqb (endpoint_key a) (api_stats_step log) api_stats
       | None => api_stats
       end)
    (api_calls self) [].

Module Patterns.
Record t : Type := mk {
  most_common_exceptions : dict str nat;
  most_failed_apis : dict str nat;
  error_by_status_code : dict Z nat;
  affected_users : list str
}.
End Patterns.

(** [set.add]: the set is kept as a duplicate-free list; the order in which
    Python lists a set is not fixed and carries no meaning here. *)
Definition set_add (v : str) (l : list str) : list str :=
  if existsb (str_eqb v) l then l else l ++ [v].

Definition patterns_step (p : Patterns.t) (log : LogEntry) : Patterns.t :=
  let (exceptions, apis, codes, users) := p in
  Patterns.mk
    (match truthy_exception log with
     | Some t => count_up str_eqb t exceptions
     | None => exceptions
     end)
    (match api log with
     | Some a => count_up str_eqb (endpoint_key a) apis
     | None => apis
     end)
    (match status_code log with
     | Some c => if truthy_int c then count_up Z.eqb c codes else codes
     | None => codes
     end)
    (fold_left
       (fun us kv => if truthy_str (snd kv) then set_add (snd kv) us else us)
       (identifiers log) users).

Definition find_common_patterns (self : LogProcessor) : Patterns.t :=
  fold_left patterns_step (errors self) (Patterns.mk [] [] [] []).

(** ** Vocabulary of the statements *)

Section Matches.

Variable ic : bool.
Variable s : str.

(** [matches r i c j c']: pattern [r] can match the characters from
    position [i] up to position [j], turning the groups [c] into [c']. *)
Fixpoint matches (r : regex) (i : nat) (c : caps) (j : nat) (c' : caps)
    : Prop :=
  match r with
  | Empty => j = i /\ c' = c
  | One a => accepts_at ic s a i = true /\ j = S i /\ c' = c
  | Bnd => boundary s i = true /\ j = i /\ c' = c
  | Seq r1 r2 => exists m c1, matches r1 i c m c1 /\ matches r2 m c1 j c'
  | Alt r1 r2 => matches r1 i c j c' \/ matches r2 i c j c'
  | Rep a lo hi =>
      c' = c /\ i <= j /\ lo <= j - i
      /\ (forall h, hi = Some h -> j - i <= h)
      /\ (forall t, i <= t < j -> accepts_at ic s a t = true)
  | Grp n r' => exists c1, matches r' i c j c1 /\ c' = (n, (i, j)) :: c1
  end.

End Matches.

(** [w] occurs in [line]; [w] occurs in [line] up to letter case. *)
Definition occurs (w line : str) : Prop :=
  exists pre post, line = pre ++ w ++ post.

Definition occurs_ci (w line : str) : Prop :=
  exists pre mid post, line = pre ++ mid ++ post /\ str_lower mid = str_lower w.

(** The characters of [u] start with those of [w], each accepted as a
    literal. *)
Fixpoint prefix_ok (ic : bool) (w u : str) : Prop :=
  match w, u with
  | [], _ => True
  | c :: w', x :: u' => accepts ic (Lit c) x = true /\ prefix_ok ic w' u'
  | _ :: _, [] => False
  end.

(** Some occurrence of [suffix] in [line] has a word character just before
    it. *)
Fixpoint word_before (suffix line : str) : bool :=
  match line with
  | [] => false
  | x :: rest =>
      (isword x && starts_with suffix rest) || word_before suffix rest
  end.



(** The entries of the non-blank lines among [lines], the first of which is
    line [idx] (counted from 0) of the document. *)
Fixpoint entries_from (idx : nat) (lines : list str) : list LogEntry :=
  match lines with
  | [] => []
  | line :: rest =>
      if truthy_str (strip line) then
        make_entry idx line :: entries_from (S idx) rest
      else entries_from (S idx) rest
  end.

Definition has_api (e : LogEntry) : bool :=
  match api e with Some _ => true | None => false end.

(** The bucket of the identifier index for one value, empty when the value
    is not a key. *)
Definition entries_for_value (self : LogProcessor) (v : str) : list LogEntry :=
  match dict_get str_eqb v (user_sessions self) with
  | Some b => b
  | None => []
  end.

(** The number of identifier kinds under which entry [e] carries the
    non-empty value [v]. *)
Definition kinds_carrying (v : str) (e : LogEntry) : nat :=
  length (filter (fun kv => truthy_str (snd kv) && str_eqb (snd kv) v)
            (identifiers e)).

(** Entries of one parse are told apart by their line number. *)
Definition same_entry (e e' : LogEntry) : bool :=
  Nat.eqb (line_number e') (line_number e).

(** C2 as stated: the line numbers of the entries are 1, 2, ..., n. *)
Definition line_numbers_contiguous (content : str) : Prop :=
  let parsed := snd (parse_logs __init__ content) in
  map line_number parsed = seq 1 (length parsed).

(** C4 as stated: an entry appears once in the bucket of each value it
    carries. *)
Definition once_per_value (content : str) : Prop :=
  let self := fst (parse_logs __init__ content) in
  let parsed := snd (parse_logs __init__ content) in
  forall e k v,
    In e parsed -> In (k, v) (identifiers e) ->
    length (filter (same_entry e) (entries_for_value self v)) = 1.

(** The loop over the identifiers of one entry in [parse_logs]. *)
Definition index_entry (m : dict str (list LogEntry)) (e : LogEntry)
    : dict str (list LogEntry) :=
  fold_left
    (fun m kv =>
       if truthy_str (snd kv) then sessions_append (snd kv) e m else m)
    (identifiers e) m.



(** The number of entries at one level. *)
Definition count_level (lv : str) (es : list LogEntry) : nat :=
  length (filter (fun e => str_eqb (level e) lv) es).

(** A document with one WARN line and one WARNING line. *)
Definition warn_and_warning : str :=
  lit "2024-01-01 10:00:00 WARN disk usage at 91%
2024-01-01 10:00:05 WARNING disk usage at 93%".

(** A document with one failing API call of one user. *)
Definition one_failed_call : str :=
  lit "2024-01-01 10:00:00 ERROR user_id=abc123 GET /api/orders 500 NullPointerException".

(** The conditions of the aggregates, in the words of the specification:
    a call is successful when its status code is present and below 400; a
    request has failed when its error flag is set or its status code is at
    least 400. *)
Definition is_successful (e : LogEntry) : bool :=
  match status_code e with
  | Some c => (c <? 400)%Z
  | None => false
  end.

Definition is_failed (e : LogEntry) : bool :=
  has_error e
  || match status_code e with
     | Some c => (400 <=? c)%Z
     | None => false
     end.

(** The API calls of one ["METHOD endpoint"] key. *)
Definition calls_of (key : str) (calls : list LogEntry) : list LogEntry :=
  filter
    (fun e =>
       match api e with
       | Some a => str_eqb (endpoint_key a) key
       | None => false
       end)
    calls.

(** The exception types that are present, in order. *)
Definition exception_types (es : list LogEntry) : list str :=
  flat_map
    (fun e => match exception_type e with Some t => [t] | None => [] end) es.

(** The API fields that are present, in order. *)
Definition apis_of (es : list LogEntry) : list ApiCall :=
  flat_map (fun e => match api e with Some a => [a] | None => [] end) es.

(** An entry built by the extractor from some line. *)
Definition parsed_entry (e : LogEntry) : Prop :=
  exists idx line, e = make_entry idx line.

(** C3 as stated: every call that has failed is counted as failed. *)
Definition failed_counts_every_failure (content : str) : Prop :=
  let self := fst (parse_logs __init__ content) in
  forall key stats,
    dict_get str_eqb key (get_api_summary self) = Some stats ->
    ApiStats.failed stats =
    length (filter is_failed (calls_of key (api_calls self))).

(** C5 as stated: the last successful API is the API field of the last
    successful entry of the journey. *)
Definition last_api_of_last_success (content query : str) : Prop :=
  let self := fst (parse_logs __init__ content) in
  forall r,
    find_error_sequence self query = Some r ->
    ErrorSequence.last_successful_api r =
    match rev (ErrorSequence.successful_requests r) with
    | e :: _ => api e
    | [] => None
    end.

(** Two successful requests of one user, the later one without an API
    call. *)
Definition success_without_api : str :=
  lit "2024-01-01 10:00:00 INFO user_id=abc123 GET /api/orders 200
2024-01-01 10:00:01 INFO user_id=abc123 session refreshed".

(** Every match of [r] sets group [n]. *)
Fixpoint sets (n : nat) (r : regex) : bool :=
  match r with
  | Grp m r' => Nat.eqb m n || sets n r'
  | Seq r1 r2 => sets n r1 || sets n r2
  | Alt r1 r2 => sets n r1 && sets n r2
  | One _ | Bnd | Rep _ _ _ | Empty => false
  end.

(** The least number of characters a match of [r] takes. *)
Fixpoint minlen (r : regex) : nat :=
  match r with
  | One _ => 1
  | Bnd | Empty => 0
  | Seq r1 r2 => minlen r1 + minlen r2
  | Alt r1 r2 => Nat.min (minlen r1) (minlen r2)
  | Rep _ lo _ => lo
  | Grp _ r' => minlen r'
  end.

(** Every group of [r] takes at least one character. *)
Fixpoint groups_nonempty (r : regex) : bool :=
  match r with
  | Grp _ r' => (1 <=? minlen r') && groups_nonempty r'
  | Seq r1 r2 | Alt r1 r2 => groups_nonempty r1 && groups_nonempty r2
  | One _ | Bnd | Rep _ _ _ | Empty => true
  end.

(** Every recorded span is a non-empty stretch of the subject. *)
Definition spans_ok (s : str) (c : caps) : Prop :=
  forall n a b, cap_get n c = Some (a, b) -> a < b <= length s.

(** The sort key in the words of the specification: the timestamp, an
    absent timestamp counting as the empty string. *)
Definition timestamp_or_empty (e : LogEntry) : str :=
  match timestamp e with
  | Some t => t
  | None => []
  end.

(** [a] does not sort after [b], by the key [key] and by timestamp. *)
Definition le_by (T : Type) (key : T -> str) (a b : T) : Prop :=
  str_ltb (key b) (key a) = false.

Definition key_le (a b : LogEntry) : Prop := le_by timestamp_or_empty a b.

(** The scenario of the specification: two timestamped entries and one
    without a timestamp, all of user abc123. *)
Definition journey_scenario : str :=
  lit "2024-01-01 10:00:01 INFO user_id=abc123 GET /api/orders 200
user_id=abc123 cache warmed
2024-01-01 10:00:01 INFO user_id=abc123 GET /api/cart 200".



(** The seven level names and the five request methods of the patterns. *)
Definition level_names : list str :=
  [lit "DEBUG"; lit "INFO"; lit "WARN"; lit "WARNING"; lit "ERROR";
   lit "FATAL"; lit "CRITICAL"].

Definition api_methods : list str :=
  [lit "GET"; lit "POST"; lit "PUT"; lit "DELETE"; lit "PATCH"].

(** The one-character patterns of a pattern of fixed length, in order. *)
Fixpoint atoms_of (r : regex) : option (list atom) :=
  match r with
  | Empty => Some []
  | One a => Some [a]
  | Seq r1 r2 =>
      match atoms_of r1, atoms_of r2 with
      | Some l1, Some l2 => Some (l1 ++ l2)
      | _, _ => None
      end
  | Rep a lo (Some hi) => if Nat.eqb lo hi then Some (repeat a lo) else None
  | Rep _ _ None | Bnd | Alt _ _ | Grp _ _ => None
  end.

(** A string fits a list of one-character patterns position by position. *)
Fixpoint fits (ic : bool) (l : list atom) (t : str) : bool :=
  match l, t with
  | [], [] => true
  | a :: l', x :: t' => accepts ic a x && fits ic l' t'
  | _, _ => false
  end.

(** The shape of a timestamp: dddd-dd-dd, a white-space character or T,
    dd:dd:dd. *)
Definition timestamp_shape : list atom :=
  [digit; digit; digit; digit; Lit (ch "-"); digit; digit; Lit (ch "-");
   digit; digit; Cls false [CSpace; CChar (ch "T")];
   digit; digit; Lit (ch ":"); digit; digit; Lit (ch ":"); digit; digit].

(** All the characters. *)
Definition all_ascii : list ascii := map ascii_of_nat (seq 0 256).

Definition is_some (A : Type) (o : option A) : bool :=
  match o with Some _ => true | None => false end.



(** The engine after the documents [docs] were parsed one after the other
    by one engine. *)
Definition parse_all (docs : list str) : LogProcessor :=
  fold_left (fun self content => fst (parse_logs self content)) docs __init__.

(** The number of items of [l] that satisfy [p]. *)
Definition count_if (A : Type) (p : A -> bool) (l : list A) : nat :=
  length (filter p l).

(** What a frequency map holds for a key that was counted [n] times. *)
Definition counted (n : nat) : option nat :=
  match n with 0 => None | S _ => Some n end.

Definition has_status (c : Z) (e : LogEntry) : bool :=
  match status_code e with Some c' => Z.eqb c' c | None => false end.

Definition has_exception (t : str) (e : LogEntry) : bool :=
  match exception_type e with Some t' => str_eqb t' t | None => false end.

Definition has_endpoint (key : str) (e : LogEntry) : bool :=
  match api e with Some a => str_eqb (endpoint_key a) key | None => false end.

(** Entry [e] carries the non-empty identifier value [v]. *)
Definition carries (v : str) (e : LogEntry) : Prop :=
  exists k, In (k, v) (identifiers e) /\ v <> [].

(** Every bucket of the index is non-empty and holds only entries that
    carry the value of its key. *)
Definition index_ok (m : dict str (list LogEntry)) : Prop :=
  forall v b, In (v, b) m -> b <> [] /\ Forall (carries v) b.

(** The entries of the documents [docs], document after document. *)
Definition all_entries (docs : list str) : list LogEntry :=
  flat_map (fun content => entries_from 0 (split_lines content)) docs.





(** ** The agent: choice of logs and of the user ([perplexity_agent.py]) *)

(** [f"{n}"] for an integer. *)
Definition str_of_nat (n : nat) : str :=
  list_ascii_of_string (NilZero.string_of_uint (Nat.to_uint n)).

Definition str_of_Z (z : Z) : str :=
  list_ascii_of_string (NilZero.string_of_int (Z.to_int z)).

(** [{"Quick": 20, "Standard": 50, "Deep": 100}.get(depth, 50)] *)
Definition max_logs_for (depth : str) : nat :=
  if str_eqb depth (lit "Quick") then 20
  else if str_eqb depth (lit "Standard") then 50
  else if str_eqb depth (lit "Deep") then 100
  else 50.

(** The relevance score of one entry in [_get_relevant_logs]. *)
Definition relevance_score (query_lower : str) (log : LogEntry) : nat :=
  let s0 := 0 in
  let s1 :=
    if contains (lit "error") query_lower && has_error log then s0 + 10
    else s0 in
  let s2 :=
    if existsb (fun keyword => contains keyword query_lower)
         [lit "user"; lit "username"; lit "journey"; lit "track"]
    then (match identifiers log with [] => s1 | _ :: _ => s1 + 5 end)
    else s1 in
  let s3 :=
    if contains (lit "api") query_lower && has_api log then s2 + 5 else s2 in
  if has_error log then s3 + 3 else s3.

(** [list.sort(key=..., reverse=True)]: a stable sort by descending key,
    computed by insertion as [sort_by] is. *)
Section SortDesc.

Variable T : Type.
Variable key : T -> nat.

Fixpoint insert_desc (x : T) (l : list T) : list T :=
  match l with
  | [] => [x]
  | y :: l' =>
      if key x <? key y then y :: insert_desc x l' else x :: y :: l'
  end.

Fixpoint sort_desc (l : list T) : list T :=
  match l with
  | [] => []
  | x :: l' => insert_desc x (sort_desc l')
  end.

End SortDesc.

(** The entries that [_get_relevant_logs] keeps, in its order. *)
Definition selected_logs (query : str) (log_data : list LogEntry)
    (depth : str) : list LogEntry :=
  let max_logs := max_logs_for depth in
  let query_lower := str_lower query in
  let relevant_logs :=
    map (fun log => (relevance_score query_lower log, log)) log_data in
  map snd (firstn max_logs (sort_desc fst relevant_logs)).

(** The text added for one selected entry. *)
Definition format_log (log : LogEntry) : str :=
  [LF] ++ lit "Line " ++ str_of_nat (line_number log) ++ lit " ["
  ++ level log ++ lit "]"
  ++ (match timestamp log with
      | Some t => if truthy_str t then lit " " ++ t else []
      | None => []
      end)
  ++ (match api log with
      | Some a => lit " " ++ method a ++ lit " " ++ endpoint a
      | None => []
      end)
  ++ (match status_code log with
      | Some c => if truthy_int c then lit " [" ++ str_of_Z c ++ lit "]" else []
      | None => []
      end)
  ++ [LF] ++ raw log ++ [LF].

Definition _get_relevant_logs (query : str) (log_data : list LogEntry)
    (depth : str) : str :=
  fold_left (fun context log => context ++ format_log log)
    (selected_logs query log_data depth)
    (lit "RELEVANT LOG ENTRIES:" ++ [LF]).

(** The three patterns of [_extract_user_from_query]. *)
Module query_patterns.

(* r"user\s+(\w+)" *)
Definition user : regex :=
  seqs [wd "user"; plus space; Grp 1 (plus wordch)].

(* r"username[:\s]+(\w+)" *)
Definition username : regex :=
  seqs [wd "username"; plus (Cls false [CChar (ch ":"); CSpace]);
        Grp 1 (plus wordch)].

(* r"for\s+(\w+)" *)
Definition for_ : regex :=
  seqs [wd "for"; plus space; Grp 1 (plus wordch)].

Definition all : list regex := [user; username; for_].

End query_patterns.

(** The loop over the patterns: the first known user whose lower-cased
    name contains the word captured by a pattern. *)
Fixpoint user_by_pattern (pats : list regex) (query_lower : str)
    (users : list str) : option str :=
  match pats with
  | [] => None
  | pattern :: rest =>
      match re_search pattern query_lower false with
      | Some m =>
          let potential_user := group query_lower m 1 in
          match find (fun user => contains potential_user (str_lower user))
                  users with
          | Some user => Some user
          | None => user_by_pattern rest query_lower users
          end
      | None => user_by_pattern rest query_lower users
      end
  end.

Definition _extract_user_from_query (query : str) (log_processor : LogProcessor)
    : option str :=
  let query_lower := str_lower query in
  match find (fun user => contains (str_lower user) query_lower)
          (get_all_users log_processor) with
  | Some user => Some user
  | None =>
      user_by_pattern query_patterns.all query_lower
        (get_all_users log_processor)
  end.

(** The window of recent entries of [prepare_context_for_ai]:
    [self.logs[-max_logs:] if len(self.logs) > max_logs else self.logs],
    for any integer [max_logs]. *)
Definition slice_from (A : Type) (start : Z) (l : list A) : list A :=
  if (start <? 0)%Z
  then skipn (Z.to_nat (Z.max 0 (Z.of_nat (length l) + start))) l
  else skipn (Z.to_nat start) l.

Definition recent_logs (self : LogProcessor) (max_logs : Z) : list LogEntry :=
  if (max_logs <? Z.of_nat (length (logs self)))%Z
  then slice_from (- max_logs) (logs self)
  else logs self.

(** The lines that [prepare_context_for_ai] adds for the recent entries:
    the level in brackets and the first 200 characters of the line. *)
Definition recent_lines (self : LogProcessor) (max_logs : Z) : list str :=
  map (fun log => [LF] ++ lit "[" ++ level log ++ lit "] "
                  ++ firstn 200 (raw log))
    (recent_logs self max_logs).





(** * Properties *)

(** ** Strings *)

Lemma chr_eqb_eq (a b : ascii) : chr_eqb a b = true <-> a = b.
Proof. unfold chr_eqb. apply Ascii.eqb_eq. Qed.

Lemma chr_eqb_refl (a : ascii) : chr_eqb a a = true.
Proof. apply chr_eqb_eq. reflexivity. Qed.

Lemma str_eqb_eq (a b : str) : str_eqb a b = true <-> a = b.
Proof.
  revert b. induction a as [|x a IH]; destruct b as [|y b]; simpl;
    try (split; [discriminate | discriminate]); try tauto.
  rewrite andb_true_iff, chr_eqb_eq, IH.
  split; [intros [-> ->]; reflexivity | intros H; inversion H; auto].
Qed.

Lemma str_eqb_refl (a : str) : str_eqb a a = true.
Proof. apply str_eqb_eq. reflexivity. Qed.

Lemma str_eqb_neq (a b : str) : str_eqb a b = false <-> a <> b.
Proof.
  rewrite <- str_eqb_eq. destruct (str_eqb a b); split; congruence.
Qed.

Lemma starts_with_spec (sub s : str) :
  starts_with sub s = true <-> exists post, s = sub ++ post.
Proof.
  revert s. induction sub as [|x sub IH]; intros s; simpl.
  - split; [intros _; exists s; reflexivity | reflexivity].
  - destruct s as [|y s].
    + split; [discriminate | intros [post H]; discriminate].
    + rewrite andb_true_iff, chr_eqb_eq, IH. split.
      * intros [-> [post ->]]. exists post. reflexivity.
      * intros [post H]. inversion H. split; [reflexivity | eauto].
Qed.

(** [sub in s] holds exactly when [s] splits around a copy of [sub]. *)
Lemma contains_spec (sub s : str) :
  contains sub s = true <-> exists pre post, s = pre ++ sub ++ post.
Proof.
  induction s as [|y s IH].
  - simpl. rewrite orb_false_r, starts_with_spec. split.
    + intros [post H]. exists [], post. exact H.
    + intros [pre [post H]]. destruct pre; [eauto|discriminate].
  - cbn [contains]. rewrite orb_true_iff, starts_with_spec, IH. split.
    + intros [[post H] | [pre [post H]]].
      * exists [], post. exact H.
      * exists (y :: pre), post. rewrite H. reflexivity.
    + intros [pre [post H]]. destruct pre as [|z pre].
      * left. exists post. exact H.
      * right. inversion H. eauto.
Qed.

Lemma lstrip_nil_iff (s : str) : lstrip s = [] <-> forallb isspace s = true.
Proof.
  induction s as [|c s IH]; simpl; [tauto|].
  destruct (isspace c); simpl; [exact IH | split; discriminate].
Qed.

(** A line strips to the empty string exactly when it is all white space. *)
Lemma strip_nil_iff (s : str) : strip s = [] <-> forallb isspace s = true.
Proof.
  unfold strip. split.
  - intros H. apply lstrip_nil_iff.
    destruct (lstrip s) as [|c l] eqn:E; [reflexivity|].
    exfalso.
    assert (Hr : lstrip (rev (c :: l)) = []).
    { apply (f_equal (@rev ascii)) in H. rewrite rev_involutive in H.
      exact H. }
    apply lstrip_nil_iff in Hr. rewrite forallb_forall in Hr.
    assert (Hc : isspace c = true) by (apply Hr, in_rev; rewrite rev_involutive; left; reflexivity).
    clear - E Hc. induction s as [|d s IH]; simpl in E; [discriminate|].
    destruct (isspace d) eqn:Ed; [auto | congruence].
  - intros H. apply lstrip_nil_iff in H. rewrite H. reflexivity.
Qed.

(** ** The matcher against a declarative reading of the patterns *)

Section MatcherSpec.

Variable ic : bool.
Variable s : str.

Lemma accepts_at_lt (a : atom) (i : nat) :
  accepts_at ic s a i = true -> i < length s.
Proof.
  unfold accepts_at. destruct (nth_error s i) eqn:E; [|discriminate].
  intros _. apply nth_error_Some. congruence.
Qed.

Lemma rep_loop_sound (A : Type) (a : atom) (lo : nat) (hi : option nat)
    (k : nat -> option A) (res : A) :
  forall fuel n i,
    (forall h, hi = Some h -> n <= h) ->
    rep_loop ic s a lo hi fuel n i k = Some res ->
    exists j, i <= j /\ lo <= n + (j - i)
      /\ (forall h, hi = Some h -> n + (j - i) <= h)
      /\ (forall t, i <= t < j -> accepts_at ic s a t = true)
      /\ k j = Some res.
Proof.
  assert (Hstop : forall n i, (forall h, hi = Some h -> n <= h) ->
            (if lo <=? n then k i else None) = Some res ->
            exists j, i <= j /\ lo <= n + (j - i)
              /\ (forall h, hi = Some h -> n + (j - i) <= h)
              /\ (forall t, i <= t < j -> accepts_at ic s a t = true)
              /\ k j = Some res).
  { intros n i Hn H. destruct (lo <=? n) eqn:E; [|discriminate].
    apply Nat.leb_le in E. exists i. repeat split; try lia; auto.
    intros h Hh. specialize (Hn h Hh). lia. }
  induction fuel as [|fuel IH]; intros n i Hn H; simpl in H; [auto|].
  destruct (under hi n && accepts_at ic s a i) eqn:E; [|auto].
  apply andb_true_iff in E. destruct E as [Hu Ha].
  destruct (rep_loop ic s a lo hi fuel (S n) (S i) k) eqn:Er; [|auto].
  inversion H; subst a0. apply IH in Er.
  - destruct Er as [j [Hj [Hlo [Hhi [Hall Hk]]]]].
    exists j. repeat split; try lia; auto.
    + intros h Hh. specialize (Hhi h Hh). lia.
    + intros t Ht. destruct (Nat.eq_dec t i) as [->|]; [exact Ha|].
      apply Hall. lia.
  - intros h Hh. subst hi. simpl in Hu. apply Nat.ltb_lt in Hu. lia.
Qed.

Lemma rep_loop_complete (A : Type) (a : atom) (lo : nat) (hi : option nat)
    (k : nat -> option A) (j : nat) :
  k j <> None ->
  forall fuel n i,
    i <= j -> j - i <= fuel -> lo <= n + (j - i) ->
    (forall h, hi = Some h -> n + (j - i) <= h) ->
    (forall t, i <= t < j -> accepts_at ic s a t = true) ->
    rep_loop ic s a lo hi fuel n i k <> None.
Proof.
  intros Hk. induction fuel as [|fuel IH]; intros n i Hij Hf Hlo Hhi Hall.
  - simpl. assert (j = i) by lia. subst j.
    replace (lo <=? n) with true by (symmetry; apply Nat.leb_le; lia).
    exact Hk.
  - simpl. destruct (Nat.eq_dec j i) as [->|Hne].
    + replace (lo <=? n) with true by (symmetry; apply Nat.leb_le; lia).
      destruct (under hi n && accepts_at ic s a i); [|exact Hk].
      destruct (rep_loop ic s a lo hi fuel (S n) (S i) k); [discriminate|exact Hk].
    + assert (Hu : under hi n = true).
      { destruct hi as [h|]; [|reflexivity]. simpl. apply Nat.ltb_lt.
        specialize (Hhi h eq_refl). lia. }
      rewrite Hu, (Hall i) by lia. simpl.
      assert (Hr : rep_loop ic s a lo hi fuel (S n) (S i) k <> None).
      { apply IH; try lia.
        - intros h Hh. specialize (Hhi h Hh). lia.
        - intros t Ht. apply Hall. lia. }
      destruct (rep_loop ic s a lo hi fuel (S n) (S i) k); [discriminate|].
      contradiction.
Qed.

(** Whatever the matcher returns comes from a match of the pattern
    followed by a success of the continuation. *)
Lemma run_sound (A : Type) (r : regex) :
  forall i c (k : nat -> caps -> option A) res,
    run ic s r i c k = Some res ->
    exists j c', matches ic s r i c j c' /\ k j c' = Some res.
Proof.
  induction r as [a| |r1 IH1 r2 IH2|r1 IH1 r2 IH2|a lo hi|n r IH|];
    intros i c k res H; simpl in H.
  - destruct (accepts_at ic s a i) eqn:E; [|discriminate].
    exists (S i), c. simpl. auto.
  - destruct (boundary s i) eqn:E; [|discriminate].
    exists i, c. simpl. auto.
  - apply IH1 in H. destruct H as [m [c1 [H1 H]]].
    apply IH2 in H. destruct H as [j [c' [H2 H]]].
    exists j, c'. split; [|exact H]. simpl. eauto.
  - destruct (run ic s r1 i c k) eqn:E.
    + inversion H; subst a. apply IH1 in E.
      destruct E as [j [c' [H1 Hk]]]. exists j, c'. simpl. auto.
    + apply IH2 in H. destruct H as [j [c' [H2 Hk]]].
      exists j, c'. simpl. auto.
  - apply rep_loop_sound in H.
    + destruct H as [j [Hj [Hlo [Hhi [Hall Hk]]]]].
      exists j, c. simpl. repeat split; auto.
    + intros h _. lia.
  - apply IH in H. destruct H as [j [c1 [H1 Hk]]].
    exists j, ((n, (i, j)) :: c1). simpl. eauto.
  - exists i, c. simpl. auto.
Qed.

(** Backtracking loses no match: when the pattern can match and the
    continuation then succeeds, the matcher returns a result. *)
Lemma run_complete (A : Type) (r : regex) :
  forall i c j c' (k : nat -> caps -> option A),
    matches ic s r i c j c' -> k j c' <> None -> run ic s r i c k <> None.
Proof.
  induction r as [a| |r1 IH1 r2 IH2|r1 IH1 r2 IH2|a lo hi|n r IH|];
    intros i c j c' k Hm Hk; simpl in Hm |- *.
  - destruct Hm as [Ha [-> ->]]. rewrite Ha. exact Hk.
  - destruct Hm as [Hb [-> ->]]. rewrite Hb. exact Hk.
  - destruct Hm as [m [c1 [H1 H2]]].
    apply (IH1 i c m c1); [exact H1|]. apply (IH2 m c1 j c'); assumption.
  - destruct (run ic s r1 i c k) eqn:E; [discriminate|].
    destruct Hm as [H1|H2].
    + exfalso. apply (IH1 i c j c' k H1 Hk). exact E.
    + apply (IH2 i c j c'); assumption.
  - destruct Hm as [-> [Hij [Hlo [Hhi Hall]]]].
    apply rep_loop_complete with (j := j); auto; try lia.
    destruct (Nat.eq_dec j i) as [->|Hne]; [lia|].
    assert (j - 1 < length s) by (apply accepts_at_lt with (a := a), Hall; lia).
    lia.
  - destruct Hm as [c1 [H1 ->]]. apply (IH i c j c1); assumption.
  - destruct Hm as [-> ->]. exact Hk.
Qed.

Lemma match_at_sound (r : regex) (i : nat) (m : match_obj) :
  match_at ic s r i = Some m ->
  m_start m = i /\ matches ic s r i [] (m_end m) (m_caps m).
Proof.
  unfold match_at. intros H. apply run_sound in H.
  destruct H as [j [c' [Hm Hk]]]. inversion Hk; subst m. simpl. auto.
Qed.

Lemma search_from_sound (r : regex) (m : match_obj) :
  forall fuel i,
    search_from ic s r fuel i = Some m ->
    i <= m_start m <= i + fuel
    /\ matches ic s r (m_start m) [] (m_end m) (m_caps m).
Proof.
  induction fuel as [|fuel IH]; intros i H; simpl in H;
    destruct (match_at ic s r i) eqn:E;
    try (inversion H; subst m0; apply match_at_sound in E;
         destruct E as [-> E]; split; [lia | exact E]).
  - discriminate.
  - apply IH in H. destruct H as [Hi H]. split; [lia | exact H].
Qed.

Lemma search_from_complete (r : regex) (p j : nat) (c' : caps) :
  matches ic s r p [] j c' ->
  forall fuel i, i <= p <= i + fuel -> search_from ic s r fuel i <> None.
Proof.
  intros Hm. induction fuel as [|fuel IH]; intros i Hi; simpl;
    destruct (match_at ic s r i) eqn:E; try discriminate.
  - assert (p = i) by lia. subst p. exfalso. revert E. unfold match_at.
    apply run_complete with (j := j) (c' := c'); [exact Hm | discriminate].
  - destruct (Nat.eq_dec p i) as [->|Hne].
    + exfalso. revert E. unfold match_at.
      apply run_complete with (j := j) (c' := c'); [exact Hm | discriminate].
    + apply IH. lia.
Qed.

(** [re.search] finds a match exactly when the pattern matches somewhere. *)
Lemma search_sound (r : regex) (m : match_obj) :
  search ic s r = Some m ->
  m_start m <= length s /\ matches ic s r (m_start m) [] (m_end m) (m_caps m).
Proof.
  unfold search. intros H. apply search_from_sound in H.
  destruct H as [Hi H]. split; [lia | exact H].
Qed.

Lemma search_complete (r : regex) (p j : nat) (c' : caps) :
  p <= length s -> matches ic s r p [] j c' -> search ic s r <> None.
Proof.
  intros Hp Hm. unfold search.
  apply search_from_complete with (p := p) (j := j) (c' := c'); [exact Hm | lia].
Qed.

End MatcherSpec.

(** ** Literal words in patterns *)

Lemma skipn_nth_error (s : str) (i : nat) (x : ascii) :
  nth_error s i = Some x -> skipn i s = x :: skipn (S i) s.
Proof.
  revert i. induction s as [|y s IH]; intros [|i] H; simpl in *;
    try discriminate.
  - inversion H. reflexivity.
  - apply IH in H. exact H.
Qed.

Lemma skipn_nth_error_none (s : str) (i : nat) :
  nth_error s i = None -> skipn i s = [].
Proof.
  intros H. apply nth_error_None in H. apply skipn_all2. exact H.
Qed.

Lemma skipn_cons_nth_error (s : str) (i : nat) (x : ascii) (u : str) :
  skipn i s = x :: u -> nth_error s i = Some x /\ skipn (S i) s = u.
Proof.
  intros H. destruct (nth_error s i) as [y|] eqn:E.
  - rewrite (skipn_nth_error _ _ E) in H. inversion H. auto.
  - rewrite (skipn_nth_error_none _ _ E) in H. discriminate.
Qed.

Lemma word_matches (ic : bool) (s : str) (w : str) :
  forall i c j c',
    matches ic s (word w) i c j c' <->
    c' = c /\ j = i + length w /\ prefix_ok ic w (skipn i s).
Proof.
  induction w as [|a w IH]; intros i c j c'; simpl.
  - rewrite Nat.add_0_r. tauto.
  - split.
    + intros [m [c1 [[Ha [-> ->]] H]]]. apply IH in H.
      destruct H as [-> [-> Hp]]. unfold accepts_at in Ha.
      destruct (nth_error s i) as [x|] eqn:E; [|discriminate].
      rewrite (skipn_nth_error _ _ E).
      repeat split; [lia | exact Ha | exact Hp].
    + intros [-> [-> Hp]].
      destruct (skipn i s) as [|x u] eqn:E; [contradiction|].
      apply skipn_cons_nth_error in E. destruct E as [E Eu].
      destruct Hp as [Ha Hp]. exists (S i), c. split.
      * unfold accepts_at. rewrite E. auto.
      * apply IH. rewrite Eu. repeat split; [lia | exact Hp].
Qed.

Lemma prefix_ok_exact (w u : str) :
  prefix_ok false w u <-> exists post, u = w ++ post.
Proof.
  revert u. induction w as [|c w IH]; intros u; simpl.
  - split; [intros _; exists u; reflexivity | trivial].
  - destruct u as [|x u].
    + split; [contradiction | intros [post H]; discriminate].
    + rewrite chr_eqb_eq, IH. split.
      * intros [-> [post ->]]. eauto.
      * intros [post H]. inversion H. eauto.
Qed.

Lemma prefix_ok_ci (w u : str) :
  prefix_ok true w u <->
  exists mid post, u = mid ++ post /\ str_lower mid = str_lower w.
Proof.
  revert u. induction w as [|c w IH]; intros u; simpl.
  - split; [intros _; exists [], u; auto | trivial].
  - destruct u as [|x u].
    + split; [contradiction|].
      intros [mid [post [H1 H2]]]. destruct mid; discriminate.
    + rewrite chr_eqb_eq, IH. split.
      * intros [Hx [mid [post [-> Hm]]]]. exists (x :: mid), post.
        simpl. rewrite Hx, Hm. auto.
      * intros [mid [post [H1 H2]]]. destruct mid as [|y mid]; [discriminate|].
        simpl in H1, H2. inversion H1; subst. inversion H2. eauto.
Qed.

Lemma skipn_app_length (pre u : str) : skipn (length pre) (pre ++ u) = u.
Proof. induction pre; simpl; auto. Qed.

(** A literal word matches somewhere exactly when it occurs (up to letter
    case under [re.IGNORECASE]). *)
Lemma word_match_occurs_ci (s w : str) (i j : nat) (c c' : caps) :
  matches true s (word w) i c j c' -> occurs_ci w s.
Proof.
  intros H. apply word_matches in H.
  destruct H as [_ [_ Hp]]. apply prefix_ok_ci in Hp.
  destruct Hp as [mid [post [Hu Hm]]].
  exists (firstn i s), mid, post. split; [|exact Hm].
  rewrite <- Hu. symmetry. apply firstn_skipn.
Qed.

Lemma occurs_ci_word_match (s w : str) :
  occurs_ci w s ->
  exists i j, i <= length s /\ forall c, matches true s (word w) i c j c.
Proof.
  intros [pre [mid [post [Hs Hm]]]].
  exists (length pre), (length pre + length w). split.
  - rewrite Hs, length_app. lia.
  - intros c. apply word_matches. repeat split.
    apply prefix_ok_ci. exists mid, post. rewrite Hs, skipn_app_length. auto.
Qed.

Lemma occurs_lower (w line : str) :
  occurs w line -> occurs (str_lower w) (str_lower line).
Proof.
  intros [pre [post ->]]. exists (str_lower pre), (str_lower post).
  unfold str_lower. rewrite !map_app. reflexivity.
Qed.

(** ** The error flag *)

Lemma exception_search (line : str) :
  re_search patterns.exception line true <> None <->
  occurs_ci (lit "Exception") line \/ occurs_ci (lit "Error") line
  \/ occurs_ci (lit "Traceback") line.
Proof.
  unfold re_search. split.
  - intros H. destruct (search true line patterns.exception) as [m|] eqn:E;
      [clear H | congruence].
    apply search_sound in E. destruct E as [_ E].
    destruct E as [c1 [[H | [H | H]] _]];
      apply word_match_occurs_ci in H; auto.
  - intros H.
    assert (Hw : exists w i j, i <= length line
               /\ (forall c, matches true line (word w) i c j c)
               /\ (w = lit "Exception" \/ w = lit "Error" \/ w = lit "Traceback")).
    { destruct H as [H | [H | H]]; apply occurs_ci_word_match in H;
        destruct H as [i [j [Hi H]]]; eauto 10. }
    destruct Hw as [w [i [j [Hi [Hm Hw]]]]].
    apply search_complete with (p := i) (j := j) (c' := [(1, (i, j))]);
      [exact Hi|].
    exists []. split; [|reflexivity].
    destruct Hw as [-> | [-> | ->]]; [left | right; left | right; right];
      apply Hm.
Qed.

Lemma has_error_spec (line : str) :
  _has_error line = true <->
  occurs_ci (lit "Exception") line \/ occurs_ci (lit "Error") line
  \/ occurs_ci (lit "Traceback") line
  \/ occurs (lit "error") (str_lower line)
  \/ occurs (lit "exception") (str_lower line).
Proof.
  unfold _has_error.
  rewrite !orb_true_iff, !contains_spec.
  pose proof (exception_search line) as Hs.
  unfold occurs.
  destruct (re_search patterns.exception line true) as [m|].
  - assert (Some m <> None) as Hm by discriminate. apply Hs in Hm. tauto.
  - assert (~ (occurs_ci (lit "Exception") line \/ occurs_ci (lit "Error") line
               \/ occurs_ci (lit "Traceback") line)) as Hn.
    { intros Hc. apply Hs in Hc. congruence. }
    split.
    + intros [[H | H] | H]; [discriminate | auto | auto].
    + intros [H | [H | [H | [H | H]]]]; try tauto.
Qed.

(** C6.  The error flag of a parsed entry is set exactly when the line
    contains, in any letter case, one of the tokens Exception, Error or
    Traceback, or the lower-cased line contains the substring error or the
    substring exception. *)
Theorem has_error_iff (idx : nat) (line : str) :
  has_error (make_entry idx line) = true <->
  occurs_ci (lit "Exception") line \/ occurs_ci (lit "Error") line
  \/ occurs_ci (lit "Traceback") line
  \/ occurs (lit "error") (str_lower line)
  \/ occurs (lit "exception") (str_lower line).
Proof. simpl. apply has_error_spec. Qed.

(** ** The exception type *)

Lemma word_before_spec (suffix line : str) :
  word_before suffix line = true <->
  exists pre x post, line = pre ++ x :: suffix ++ post /\ isword x = true.
Proof.
  induction line as [|y line IH]; simpl.
  - split; [discriminate|]. intros [pre [x [post [H _]]]].
    destruct pre; discriminate.
  - rewrite orb_true_iff, andb_true_iff, starts_with_spec, IH. split.
    + intros [[Hy [post ->]] | [pre [x [post [-> Hx]]]]].
      * exists [], y, post. auto.
      * exists (y :: pre), x, post. auto.
    + intros [pre [x [post [H Hx]]]]. destruct pre as [|z pre].
      * inversion H; subst. left. eauto.
      * inversion H; subst. right. eauto.
Qed.

Lemma accepts_wordch (s : str) (t : nat) :
  accepts_at false s wordch t = word_at s t.
Proof.
  unfold accepts_at, word_at. destruct (nth_error s t) as [x|]; [|reflexivity].
  simpl. unfold item_ok. simpl. rewrite orb_false_r. reflexivity.
Qed.

Lemma slice_split (s : str) (i m : nat) :
  i <= m -> skipn i s = slice s i m ++ skipn m s.
Proof.
  intros H. unfold slice.
  replace (skipn m s) with (skipn (m - i) (skipn i s)).
  - symmetry. apply firstn_skipn.
  - rewrite skipn_skipn. f_equal. lia.
Qed.

Lemma slice_length (s : str) (i m : nat) :
  m <= length s -> length (slice s i m) = m - i.
Proof.
  intros H. unfold slice. rewrite length_firstn, length_skipn. lia.
Qed.

Lemma slice_forallb (p : ascii -> bool) (s : str) (i m : nat) :
  (forall t, i <= t < m ->
     match nth_error s t with Some x => p x | None => false end = true) ->
  forallb p (slice s i m) = true.
Proof.
  intros H. apply forallb_forall. intros x Hx.
  apply In_nth_error in Hx. destruct Hx as [n Hn]. unfold slice in Hn.
  rewrite nth_error_firstn in Hn.
  destruct (Nat.ltb n (m - i)) eqn:E; [|discriminate].
  apply Nat.ltb_lt in E. rewrite nth_error_skipn in Hn.
  specialize (H (i + n)). rewrite Hn in H. apply H. lia.
Qed.

(** What a match of the exception pattern looks like: a run of word
    characters from [i] to [m], then the suffix, and group 1 spanning the
    whole match. *)
Lemma exception_pattern_match (s : str) (i j : nat) (c' : caps) :
  matches false s exception_pattern i [] j c' ->
  exists m suffix post,
    (suffix = lit "Exception" \/ suffix = lit "Error")
    /\ i < m /\ (forall t, i <= t < m -> word_at s t = true)
    /\ skipn m s = suffix ++ post /\ j = m + length suffix
    /\ c' = [(1, (i, j))].
Proof.
  intros [c1 [H ->]].
  assert (Hw : exists suffix, (suffix = lit "Exception" \/ suffix = lit "Error")
             /\ matches false s (Seq (plus wordch) (word suffix)) i [] j c1).
  { destruct H as [H | H]; eauto. }
  clear H. destruct Hw as [suffix [Hsuf [m [c2 [Hrep Hword]]]]].
  destruct Hrep as [-> [Him [Hlo [_ Hall]]]].
  apply word_matches in Hword. destruct Hword as [-> [-> Hp]].
  apply prefix_ok_exact in Hp. destruct Hp as [post Hp].
  exists m, suffix, post. repeat split; auto; try lia.
  intros t Ht. rewrite <- accepts_wordch. auto.
Qed.

Lemma word_at_nth (s : str) (t : nat) :
  word_at s t = true -> exists x, nth_error s t = Some x /\ isword x = true.
Proof.
  unfold word_at. destruct (nth_error s t) as [x|]; [eauto | discriminate].
Qed.

Lemma exception_search_word_before (line : str) :
  re_search exception_pattern line false <> None <->
  word_before (lit "Exception") line || word_before (lit "Error") line = true.
Proof.
  unfold re_search. split.
  - intros H. destruct (search false line exception_pattern) as [mo|] eqn:E;
      [clear H | congruence].
    apply search_sound in E. destruct E as [_ E].
    apply exception_pattern_match in E.
    destruct E as [m [suffix [post [Hsuf [Him [Hall [Hsk _]]]]]]].
    assert (Hb : word_before suffix line = true).
    { apply word_before_spec.
      destruct (word_at_nth line (m - 1)) as [x [Hx Hw]]; [apply Hall; lia|].
      exists (firstn (m - 1) line), x, post. split; [|exact Hw].
      rewrite <- Hsk. replace m with (S (m - 1)) at 2 by lia.
      rewrite <- (skipn_nth_error _ _ Hx). symmetry. apply firstn_skipn. }
    apply orb_true_iff. destruct Hsuf as [-> | ->]; auto.
  - intros H.
    assert (Hw : exists suffix,
               (suffix = lit "Exception" \/ suffix = lit "Error")
               /\ word_before suffix line = true).
    { apply orb_true_iff in H. destruct H; eauto. }
    destruct Hw as [suffix [Hsuf Hb]]. apply word_before_spec in Hb.
    destruct Hb as [pre [x [post [Hl Hx]]]].
    assert (Hn : nth_error line (length pre) = Some x).
    { rewrite Hl, nth_error_app2, Nat.sub_diag by lia. reflexivity. }
    assert (Hm : matches false line (Seq (plus wordch) (word suffix))
                   (length pre) [] (S (length pre) + length suffix) []).
    { exists (S (length pre)), []. split.
      - repeat split; try lia; try discriminate.
        intros t Ht. assert (t = length pre) as -> by lia.
        rewrite accepts_wordch. unfold word_at. rewrite Hn. exact Hx.
      - apply word_matches. repeat split. apply prefix_ok_exact. exists post.
        apply skipn_cons_nth_error with (x := x).
        rewrite Hl, skipn_app_length. reflexivity. }
    apply search_complete
      with (p := length pre) (j := S (length pre) + length suffix)
           (c' := [(1, (length pre, S (length pre) + length suffix))]).
    + rewrite Hl, length_app. lia.
    + exists []. split; [|reflexivity].
      destruct Hsuf as [-> | ->]; [left | right]; exact Hm.
Qed.

Lemma exception_value_shape (line t : str) :
  _extract_exception line = Some t ->
  exists token suffix,
    t = token ++ suffix /\ token <> [] /\ forallb isword token = true
    /\ (suffix = lit "Exception" \/ suffix = lit "Error")
    /\ occurs t line.
Proof.
  unfold _extract_exception, re_search.
  destruct (search false line exception_pattern) as [mo|] eqn:E;
    [|discriminate].
  intros H. inversion H as [Ht]. clear H.
  apply search_sound in E. destruct E as [_ E].
  apply exception_pattern_match in E.
  destruct E as [m [suffix [post [Hsuf [Him [Hall [Hsk [Hj Hc]]]]]]]].
  unfold group. rewrite Hc. simpl.
  set (i := m_start mo) in *. set (j := m_end mo) in *.
  assert (Hlen : m <= length line).
  { destruct (word_at_nth line (m - 1)) as [x [Hx _]]; [apply Hall; lia|].
    assert (m - 1 < length line) by (apply nth_error_Some; congruence). lia. }
  assert (Hs : slice line i j = slice line i m ++ suffix).
  { unfold slice at 1. rewrite (slice_split line (i := i) (m := m)) by lia.
    rewrite Hsk. replace (j - i) with (length (slice line i m) + length suffix)
      by (rewrite slice_length by lia; lia).
    rewrite firstn_app_2. f_equal.
    rewrite <- (Nat.add_0_r (length suffix)), firstn_app_2. simpl.
    apply app_nil_r. }
  exists (slice line i m), suffix. repeat split; auto.
  - intros Hnil. apply (f_equal (@length ascii)) in Hnil.
    rewrite slice_length in Hnil by lia. simpl in Hnil. lia.
  - apply slice_forallb. intros t0 Ht0. apply Hall in Ht0. exact Ht0.
  - exists (firstn i line), post. rewrite Hs, <- app_assoc, <- Hsk.
    rewrite <- slice_split by lia. symmetry. apply firstn_skipn.
Qed.

(** C10.  A line in which Error or Exception occurs, but never with a word
    character just before it, is flagged as an error and has no exception
    type.  The exception type is present exactly when some occurrence of
    Exception or Error has a word character just before it, and its value
    is then a non-empty run of word characters followed by that suffix. *)
Theorem bare_error_has_no_exception_type (idx : nat) (line : str) :
  (contains (lit "Error") line || contains (lit "Exception") line = true ->
   word_before (lit "Exception") line = false ->
   word_before (lit "Error") line = false ->
   has_error (make_entry idx line) = true
   /\ exception_type (make_entry idx line) = None)
  /\ (exception_type (make_entry idx line) <> None <->
      word_before (lit "Exception") line || word_before (lit "Error") line
      = true)
  /\ (forall t, exception_type (make_entry idx line) = Some t ->
      exists token suffix,
        t = token ++ suffix /\ token <> [] /\ forallb isword token = true
        /\ (suffix = lit "Exception" \/ suffix = lit "Error")
        /\ occurs t line).
Proof.
  assert (Hiff : exception_type (make_entry idx line) <> None <->
            word_before (lit "Exception") line || word_before (lit "Error") line
            = true).
  { simpl. unfold _extract_exception.
    rewrite <- exception_search_word_before.
    destruct (re_search exception_pattern line false);
      split; congruence. }
  split; [|split].
  - intros Hc Hex Her. split.
    + simpl. apply has_error_spec. apply orb_true_iff in Hc.
      destruct Hc as [Hc | Hc]; apply contains_spec in Hc;
        apply occurs_lower in Hc; auto.
    + destruct (exception_type (make_entry idx line)) eqn:E; [|reflexivity].
      exfalso. assert (Some s <> None) as Hs by discriminate.
      apply Hiff in Hs. rewrite Hex, Her in Hs. discriminate.
  - exact Hiff.
  - simpl. apply exception_value_shape.
Qed.

Lemma bare_error_has_no_exception_type_witness :
  has_error (make_entry 0 (lit "Error: connection refused")) = true
  /\ exception_type (make_entry 0 (lit "Error: connection refused")) = None.
Proof.
  apply (proj1 (bare_error_has_no_exception_type 0
                  (lit "Error: connection refused")));
    reflexivity.
Defined.

(** ** The status code *)

Lemma slice_occurs (s : str) (i m : nat) : i <= m -> occurs (slice s i m) s.
Proof.
  intros H. exists (firstn i s), (skipn m s).
  rewrite <- slice_split by exact H. symmetry. apply firstn_skipn.
Qed.

Lemma accepts_digit (s : str) (t : nat) :
  accepts_at false s digit t = true ->
  match nth_error s t with Some x => isdigit x | None => false end = true.
Proof.
  unfold accepts_at. destruct (nth_error s t) as [x|]; [|discriminate].
  simpl. unfold item_ok. simpl. rewrite orb_false_r. auto.
Qed.

Lemma accepts_lit_digit (s : str) (t : nat) (d : ascii) :
  isdigit d = true ->
  accepts_at false s (Lit d) t = true ->
  match nth_error s t with Some x => isdigit x | None => false end = true.
Proof.
  unfold accepts_at. destruct (nth_error s t) as [x|]; [|discriminate].
  simpl. intros Hd Hx. apply chr_eqb_eq in Hx. subst x. exact Hd.
Qed.

(** A match of the status-code pattern spans three digits, captured as
    group 1. *)
Lemma status_code_match (s : str) (i j : nat) (c' : caps) :
  matches false s patterns.status_code i [] j c' ->
  j = i + 3 /\ j <= length s /\ c' = [(1, (i, j))]
  /\ forall t, i <= t < j ->
       match nth_error s t with Some x => isdigit x | None => false end = true.
Proof.
  intros [m0 [c0 [[_ [E0 F0]] [m1 [c1 [[c2 [Halt F1]] H]]]]]].
  destruct H as [m2 [c3 [[_ [E2 F2]] [E3 F3]]]].
  assert (Hd : exists d, isdigit d = true
             /\ matches false s (Seq (One (Lit d)) (exactly 2 digit))
                  m0 c0 m1 c2).
  { destruct Halt as [H | [H | [H | [H | H]]]];
      eexists; (split; [|exact H]); reflexivity. }
  clear Halt. destruct Hd as [d [Hd [m [c4 [[Ha [E4 F4]] Hrep]]]]].
  destruct Hrep as [F5 [Hle [Hlo [Hhi Hall]]]].
  specialize (Hhi 2 eq_refl). subst.
  assert (Hj : m1 = i + 3) by lia.
  assert (Hlast : accepts_at false s digit (i + 2) = true)
    by (apply Hall; lia).
  apply accepts_at_lt in Hlast.
  repeat split; auto; try lia.
  intros t Ht. destruct (Nat.eq_dec t i) as [-> | Hne].
  - apply accepts_lit_digit with (d := d); assumption.
  - apply accepts_digit, Hall. lia.
Qed.

(** C9.  The status code of a parsed entry is absent or an integer from
    100 to 599, read from three consecutive digits of the line; the values
    0 to 99 and 600 to 999 are therefore never reported. *)
Theorem status_code_in_range (idx : nat) (line : str) :
  match status_code (make_entry idx line) with
  | None => True
  | Some c =>
      (100 <= c <= 599)%Z
      /\ exists digits,
           occurs digits line /\ length digits = 3
           /\ forallb isdigit digits = true /\ c = int_of_digits digits
  end.
Proof.
  simpl. unfold _extract_status_code, re_search.
  destruct (search false line patterns.status_code) as [mo|] eqn:E;
    [|exact I].
  apply search_sound in E. destruct E as [_ E].
  apply status_code_match in E. destruct E as [Hj [Hlen [Hc Hall]]].
  destruct ((100 <=? int_of_digits (group line mo 1))%Z
            && (int_of_digits (group line mo 1) <=? 599)%Z) eqn:G; [|exact I].
  apply andb_true_iff in G. destruct G as [G1 G2].
  apply Z.leb_le in G1, G2. split; [lia|].
  unfold group. rewrite Hc. simpl.
  exists (slice line (m_start mo) (m_end mo)). repeat split.
  - apply slice_occurs. lia.
  - rewrite slice_length by exact Hlen. lia.
  - apply slice_forallb. exact Hall.
Qed.

Example status_code_out_of_range :
  _extract_status_code (lit "GET /api/orders 600") = None
  /\ _extract_status_code (lit "HTTP 099 x999 id-042") = None
  /\ _extract_status_code (lit "GET /api/orders 404") = Some 404%Z.
Proof. repeat split; reflexivity. Qed.

(** ** Dictionaries *)

Section DictFacts.

Variables K V : Type.
Variable eqb : K -> K -> bool.
Hypothesis eqb_eq : forall a b, eqb a b = true <-> a = b.

Lemma dict_get_upd (k k0 : K) (f : option V -> V) (d : dict K V) :
  dict_get eqb k (dict_upd eqb k0 f d) =
  if eqb k0 k then Some (f (dict_get eqb k0 d)) else dict_get eqb k d.
Proof.
  induction d as [|[k' v] d IH]; simpl.
  - destruct (eqb k0 k) eqn:E; [|reflexivity].
    reflexivity.
  - destruct (eqb k' k0) eqn:E0; simpl.
    + apply eqb_eq in E0. subst k'. destruct (eqb k0 k); reflexivity.
    + destruct (eqb k' k) eqn:E1; [|exact IH].
      apply eqb_eq in E1. subst k'.
      destruct (eqb k0 k) eqn:E2; [|reflexivity].
      apply eqb_eq in E2. subst k0.
      assert (eqb k k = true) by (apply eqb_eq; reflexivity). congruence.
Qed.

Lemma dict_values_upd_concat (W : Type) (k0 : K) (x : W)
    (d : dict K (list W)) (y : W) :
  In y (concat (dict_values
                  (dict_upd eqb k0
                     (fun o => match o with
                               | Some b => b ++ [x]
                               | None => [] ++ [x]
                               end) d)))
  <-> In y (concat (dict_values d)) \/ y = x.
Proof.
  unfold dict_values. induction d as [|[k' b] d IH]; simpl.
  - intuition.
  - destruct (eqb k' k0); simpl; rewrite !in_app_iff.
    + simpl. intuition.
    + rewrite IH. intuition.
Qed.

End DictFacts.

(** ** Parsing a document *)

Lemma parse_loop_spec (lines : list str) :
  forall self parsed idx,
    parse_loop self parsed idx lines =
    (fold_left track (entries_from idx lines) self,
     parsed ++ entries_from idx lines).
Proof.
  induction lines as [|line rest IH]; intros self parsed idx; simpl.
  - rewrite app_nil_r. reflexivity.
  - destruct (truthy_str (strip line)); simpl.
    + rewrite IH, <- app_assoc. reflexivity.
    + apply IH.
Qed.

Lemma track_all (es : list LogEntry) :
  forall self,
    fold_left track es self =
    mkLogProcessor (logs self)
      (fold_left index_entry es (user_sessions self))
      (errors self ++ filter has_error es)
      (api_calls self ++ filter has_api es).
Proof.
  induction es as [|e es IH]; intros self; simpl.
  - rewrite !app_nil_r. destruct self; reflexivity.
  - rewrite IH. unfold track, has_api, index_entry. simpl. f_equal.
    + destruct (has_error e); [rewrite <- app_assoc|]; reflexivity.
    + destruct (api e); [rewrite <- app_assoc|]; reflexivity.
Qed.

(** The state and the result of [parse_logs]. *)
Lemma parse_logs_spec (self : LogProcessor) (content : str) :
  parse_logs self content =
  (mkLogProcessor (entries_from 0 (split_lines content))
     (fold_left index_entry (entries_from 0 (split_lines content))
        (user_sessions self))
     (errors self ++ filter has_error (entries_from 0 (split_lines content)))
     (api_calls self ++ filter has_api (entries_from 0 (split_lines content))),
   entries_from 0 (split_lines content)).
Proof.
  unfold parse_logs. rewrite parse_loop_spec, track_all. reflexivity.
Qed.

Lemma entries_from_numbers (lines : list str) :
  forall idx,
    map (fun e => (line_number e, raw e)) (entries_from idx lines) =
    filter (fun p => truthy_str (strip (snd p)))
      (combine (seq (S idx) (length lines)) lines).
Proof.
  induction lines as [|line rest IH]; intros idx; simpl; [reflexivity|].
  destruct (truthy_str (strip line)); simpl.
  - rewrite IH. f_equal. f_equal. lia.
  - apply IH.
Qed.

Lemma entries_from_bound (lines : list str) :
  forall idx e, In e (entries_from idx lines) -> idx < line_number e.
Proof.
  induction lines as [|line rest IH]; intros idx e H; simpl in H;
    [contradiction|].
  destruct (truthy_str (strip line)).
  - destruct H as [<- | H]; [simpl; lia|]. apply IH in H. lia.
  - apply IH in H. lia.
Qed.

Lemma entries_from_sorted (lines : list str) :
  forall idx, StronglySorted lt (map line_number (entries_from idx lines)).
Proof.
  induction lines as [|line rest IH]; intros idx; simpl; [constructor|].
  destruct (truthy_str (strip line)); [|apply IH].
  simpl. constructor; [apply IH|].
  apply Forall_forall. intros n Hn. apply in_map_iff in Hn.
  destruct Hn as [e [<- He]]. apply entries_from_bound in He. lia.
Qed.

(** C2, as the code has it.  The entries are those of the non-blank lines
    in order, and the line number of an entry is the 1-based position of
    its line among all the lines of the document, blank ones included; the
    line numbers are therefore strictly ascending, and a blank line gives
    no entry but uses up a number. *)
Theorem line_numbers_are_positions (self : LogProcessor) (content : str) :
  let parsed := snd (parse_logs self content) in
  let lines := split_lines content in
  map (fun e => (line_number e, raw e)) parsed =
  filter (fun p => truthy_str (strip (snd p)))
    (combine (seq 1 (length lines)) lines)
  /\ StronglySorted lt (map line_number parsed).
Proof.
  rewrite parse_logs_spec. simpl. split.
  - apply entries_from_numbers.
  - apply entries_from_sorted.
Qed.

(** A blank line in the middle: the entries are numbered 1 and 3. *)
Lemma line_numbers_not_contiguous :
  ~ line_numbers_contiguous [ch "a"; LF; LF; ch "b"].
Proof. unfold line_numbers_contiguous. vm_compute. discriminate. Qed.

(** ** The identifier index *)

Lemma bucket_append (m : dict str (list LogEntry)) (v v0 : str) (e : LogEntry) :
  match dict_get str_eqb v (sessions_append v0 e m) with
  | Some b => b
  | None => []
  end =
  match dict_get str_eqb v m with Some b => b | None => [] end
  ++ (if str_eqb v0 v then [e] else []).
Proof.
  unfold sessions_append. rewrite (@dict_get_upd _ _ _ str_eqb_eq).
  destruct (str_eqb v0 v) eqn:E.
  - apply str_eqb_eq in E. subst v0.
    destruct (dict_get str_eqb v m); reflexivity.
  - rewrite app_nil_r. reflexivity.
Qed.

Lemma bucket_index_pairs (v : str) (e : LogEntry) (ids : list (kind * str)) :
  forall m,
    match dict_get str_eqb v
            (fold_left
               (fun m kv =>
                  if truthy_str (snd kv) then sessions_append (snd kv) e m
                  else m) ids m)
    with Some b => b | None => [] end =
    match dict_get str_eqb v m with Some b => b | None => [] end
    ++ repeat e (length (filter
                           (fun kv => truthy_str (snd kv) && str_eqb (snd kv) v)
                           ids)).
Proof.
  induction ids as [|[k v0] ids IH]; intros m; simpl.
  - rewrite app_nil_r. reflexivity.
  - rewrite IH. destruct (truthy_str v0); simpl.
    + rewrite bucket_append, <- app_assoc.
      destruct (str_eqb v0 v); reflexivity.
    + reflexivity.
Qed.

Lemma bucket_index_all (v : str) (es : list LogEntry) :
  forall m,
    match dict_get str_eqb v (fold_left index_entry es m) with
    | Some b => b
    | None => []
    end =
    match dict_get str_eqb v m with Some b => b | None => [] end
    ++ flat_map (fun e => repeat e (kinds_carrying v e)) es.
Proof.
  induction es as [|e es IH]; intros m; simpl.
  - rewrite app_nil_r. reflexivity.
  - rewrite IH. unfold index_entry. rewrite bucket_index_pairs.
    rewrite <- app_assoc. reflexivity.
Qed.

(** C4, as the code has it.  After a document is parsed by a fresh engine,
    the bucket of a value lists, in original line order, the entries that
    carry the value, each entry once for every identifier kind under which
    it carries the value; so every entry is in the bucket of each of its
    non-empty identifier values. *)
Theorem bucket_once_per_kind (content : str) (v : str) :
  let self := fst (parse_logs __init__ content) in
  let parsed := snd (parse_logs __init__ content) in
  entries_for_value self v =
  flat_map (fun e => repeat e (kinds_carrying v e)) parsed
  /\ (forall e k, In e parsed -> In (k, v) (identifiers e) ->
      truthy_str v = true -> In e (entries_for_value self v)).
Proof.
  rewrite parse_logs_spec. simpl.
  assert (Hb : entries_for_value
            (mkLogProcessor (entries_from 0 (split_lines content))
               (fold_left index_entry (entries_from 0 (split_lines content)) [])
               (filter has_error (entries_from 0 (split_lines content)))
               (filter has_api (entries_from 0 (split_lines content)))) v =
          flat_map (fun e => repeat e (kinds_carrying v e))
            (entries_from 0 (split_lines content))).
  { unfold entries_for_value. simpl. rewrite bucket_index_all. reflexivity. }
  split; [exact Hb|].
  intros e k He Hk Hv. rewrite Hb. apply in_flat_map. exists e.
  split; [exact He|].
  assert (Hpos : 0 < kinds_carrying v e).
  { unfold kinds_carrying.
    assert (Hin : In (k, v) (filter
                     (fun kv => truthy_str (snd kv) && str_eqb (snd kv) v)
                     (identifiers e))).
    { apply filter_In. split; [exact Hk|]. simpl.
      rewrite Hv, str_eqb_refl. reflexivity. }
    destruct (filter _ (identifiers e)); [contradiction | simpl; lia]. }
  destruct (kinds_carrying v e); [lia | left; reflexivity].
Qed.

Lemma bucket_once_per_kind_witness :
  In (make_entry 0 (lit "user_id=abc123 login"))
    (entries_for_value
       (fst (parse_logs __init__ (lit "user_id=abc123 login")))
       (lit "abc123")).
Proof.
  apply (proj2 (bucket_once_per_kind (lit "user_id=abc123 login")
                  (lit "abc123")))
    with (k := user_id).
  - left. reflexivity.
  - left. reflexivity.
  - reflexivity.
Defined.

(** One value under two kinds: the entry is in the bucket twice. *)
Lemma twice_under_two_kinds :
  ~ once_per_value (lit "trace_id=abc request_id=abc").
Proof.
  intros H.
  specialize (H (make_entry 0 (lit "trace_id=abc request_id=abc"))
                trace_id (lit "abc")).
  assert (Hc : length (filter
                 (same_entry (make_entry 0 (lit "trace_id=abc request_id=abc")))
                 (entries_for_value
                    (fst (parse_logs __init__
                            (lit "trace_id=abc request_id=abc")))
                    (lit "abc"))) = 2)
    by (vm_compute; reflexivity).
  rewrite H in Hc; [discriminate | | ]; vm_compute; left; reflexivity.
Qed.

(** ** Statistics *)

Lemma count_levels_disjoint (a b : str) (es : list LogEntry) :
  a <> b -> count_level a es + count_level b es <= length es.
Proof.
  intros Hab. unfold count_level. induction es as [|e es IH]; simpl; [lia|].
  destruct (str_eqb (level e) a) eqn:Ea; destruct (str_eqb (level e) b) eqn:Eb;
    simpl; try lia.
  apply str_eqb_eq in Ea, Eb. congruence.
Qed.

(** C7.  The warnings count is the number of entries whose level is WARN;
    an entry whose level is WARNING is never among them, and a document
    with one WARN line and one WARNING line has a warnings count of 1. *)
Theorem warnings_count_WARN_only (self : LogProcessor) (content : str) :
  let st := fst (parse_logs self content) in
  Statistics.warnings (get_statistics st) = count_level (lit "WARN") (logs st)
  /\ Statistics.warnings (get_statistics st)
     + count_level (lit "WARNING") (logs st)
     <= Statistics.total_logs (get_statistics st)
  /\ count_level (lit "WARN") (snd (parse_logs __init__ warn_and_warning)) = 1
  /\ count_level (lit "WARNING") (snd (parse_logs __init__ warn_and_warning)) = 1
  /\ Statistics.warnings
       (get_statistics (fst (parse_logs __init__ warn_and_warning))) = 1.
Proof.
  split; [reflexivity|]. split.
  - simpl. apply count_levels_disjoint. discriminate.
  - repeat split; vm_compute; reflexivity.
Qed.

(** ** Parsing twice with one engine *)

(** The entries returned by [parse_logs] depend on the document only. *)
Lemma reparse_same_entries (self : LogProcessor) (content : str) :
  snd (parse_logs (fst (parse_logs self content)) content) =
  snd (parse_logs self content).
Proof. rewrite !parse_logs_spec. reflexivity. Qed.

(** The error list, the API-call list and the index are not rebuilt: a
    second parse adds to what the first one left. *)
Lemma reparse_keeps_lists (self : LogProcessor) (content : str) :
  let st1 := fst (parse_logs self content) in
  let st2 := fst (parse_logs st1 content) in
  errors st2 = errors st1 ++ filter has_error (logs st1)
  /\ api_calls st2 = api_calls st1 ++ filter has_api (logs st1)
  /\ forall v, entries_for_value st2 v =
               entries_for_value st1 v
               ++ flat_map (fun e => repeat e (kinds_carrying v e)) (logs st1).
Proof.
  rewrite (parse_logs_spec self content). simpl.
  rewrite parse_logs_spec. simpl. split; [reflexivity|].
  split; [reflexivity|].
  intros v. unfold entries_for_value. simpl. apply bucket_index_all.
Qed.

(** C1 on the document [one_failed_call]: the second parse returns the
    same entries, but the engine now reports two API calls for the one
    entry, two calls of the endpoint, the exception twice, and the entry
    twice in the bucket of its user. *)
Theorem reparse_accumulates :
  let st1 := fst (parse_logs __init__ one_failed_call) in
  let st2 := fst (parse_logs st1 one_failed_call) in
  snd (parse_logs st1 one_failed_call) = snd (parse_logs __init__ one_failed_call)
  /\ Statistics.total_logs (get_statistics st1) = 1
  /\ Statistics.total_logs (get_statistics st2) = 1
  /\ Statistics.api_calls (get_statistics st1) = 1
  /\ Statistics.api_calls (get_statistics st2) = 2
  /\ map (fun kv => ApiStats.total_calls (snd kv)) (get_api_summary st1) = [1]
  /\ map (fun kv => ApiStats.total_calls (snd kv)) (get_api_summary st2) = [2]
  /\ map snd (Patterns.most_common_exceptions (find_common_patterns st1)) = [1]
  /\ map snd (Patterns.most_common_exceptions (find_common_patterns st2)) = [2]
  /\ length (entries_for_value st1 (lit "abc123")) = 1
  /\ length (entries_for_value st2 (lit "abc123")) = 2.
Proof. repeat split; vm_compute; reflexivity. Qed.

(** ** Entries made by the extractor *)

Lemma entries_from_parsed (lines : list str) :
  forall idx, Forall parsed_entry (entries_from idx lines).
Proof.
  induction lines as [|line rest IH]; intros idx; simpl; [constructor|].
  destruct (truthy_str (strip line)); [|apply IH].
  constructor; [|apply IH]. exists idx, line. reflexivity.
Qed.

Lemma parsed_status_range (e : LogEntry) (c : Z) :
  parsed_entry e -> status_code e = Some c -> (100 <= c <= 599)%Z.
Proof.
  intros [idx [line ->]]. simpl. unfold _extract_status_code.
  destruct (re_search patterns.status_code line false); [|discriminate].
  destruct ((100 <=? int_of_digits (group line m 1))%Z
            && (int_of_digits (group line m 1) <=? 599)%Z) eqn:G;
    [|discriminate].
  intros H. inversion H; subst c.
  apply andb_true_iff in G. destruct G as [G1 G2].
  apply Z.leb_le in G1, G2. lia.
Qed.

Lemma parsed_status_lt_400 (e : LogEntry) :
  parsed_entry e -> status_lt_400 e = is_successful e.
Proof.
  intros H. unfold status_lt_400, is_successful.
  destruct (status_code e) as [c|] eqn:E; [|reflexivity].
  apply (parsed_status_range H) in E. unfold truthy_int.
  replace (c =? 0)%Z with false by (symmetry; apply Z.eqb_neq; lia).
  reflexivity.
Qed.

Lemma failed_condition (e : LogEntry) :
  has_error e || status_ge_400 e = is_failed e.
Proof.
  unfold status_ge_400, is_failed. f_equal.
  destruct (status_code e) as [c|]; [|reflexivity].
  unfold truthy_int. destruct (400 <=? c)%Z eqn:E.
  - apply Z.leb_le in E.
    replace (c =? 0)%Z with false by (symmetry; apply Z.eqb_neq; lia).
    reflexivity.
  - apply andb_false_r.
Qed.

Lemma parsed_exception_truthy (e : LogEntry) :
  parsed_entry e -> truthy_exception e = exception_type e.
Proof.
  intros [idx [line ->]]. unfold truthy_exception. simpl.
  destruct (_extract_exception line) as [t|] eqn:E; [|reflexivity].
  apply exception_value_shape in E.
  destruct E as [token [suffix [-> [Hne _]]]].
  destruct token; [contradiction | reflexivity].
Qed.

(** ** The API summary *)

(** The statistics of one key after a run of its calls. *)
Lemma api_stats_run (cs : list LogEntry) :
  Forall parsed_entry cs ->
  forall st,
    fold_left (fun o e => Some (api_stats_step e o)) cs (Some st) =
    Some (ApiStats.mk
            (ApiStats.total_calls st + length cs)
            (ApiStats.successful st + length (filter is_successful cs))
            (ApiStats.failed st
             + length (filter (fun e => is_failed e && negb (is_successful e)) cs))
            (ApiStats.errors st
             ++ exception_types
                  (filter (fun e => is_failed e && negb (is_successful e)) cs))).
Proof.
  induction 1 as [|e cs He Hcs IH]; intros [total ok ko errs]; simpl.
  - rewrite !Nat.add_0_r, app_nil_r. reflexivity.
  - rewrite IH. unfold api_stats_step.
    rewrite (parsed_status_lt_400 He), failed_condition,
      (parsed_exception_truthy He).
    destruct (is_successful e); simpl.
    + rewrite andb_false_r. simpl. f_equal. f_equal; lia.
    + rewrite andb_true_r. destruct (is_failed e); simpl.
      * f_equal. f_equal; try lia.
        destruct (exception_type e); simpl;
          [rewrite <- app_assoc|]; reflexivity.
      * f_equal. f_equal; lia.
Qed.

Lemma api_summary_fold (key : str) (calls : list LogEntry) :
  forall acc,
    dict_get str_eqb key
      (fold_left
         (fun api_stats log =>
            match api log with
            | Some a =>
                dict_upd str_eqb (endpoint_key a) (api_stats_step log) api_stats
            | None => api_stats
            end)
         calls acc) =
    fold_left (fun o e => Some (api_stats_step e o)) (calls_of key calls)
      (dict_get str_eqb key acc).
Proof.
  induction calls as [|e calls IH]; intros acc; simpl; [reflexivity|].
  rewrite IH. destruct (api e) as [a|]; [|reflexivity].
  rewrite (@dict_get_upd _ _ _ str_eqb_eq).
  destruct (str_eqb (endpoint_key a) key) eqn:E; [|reflexivity].
  apply str_eqb_eq in E. subst key. reflexivity.
Qed.

Lemma calls_of_parsed (key : str) (calls : list LogEntry) :
  Forall parsed_entry calls -> Forall parsed_entry (calls_of key calls).
Proof.
  intros H. apply Forall_forall. intros e He. apply filter_In in He.
  rewrite Forall_forall in H. apply H. tauto.
Qed.

(** C3, as the code has it.  After a document is parsed by a fresh engine,
    the summary has an entry for exactly the keys that have API calls, and
    per key: total_calls counts the calls of the key; successful counts the
    calls whose status code is present and below 400; failed counts the
    calls that are not successful and whose error flag is set or whose
    status code is at least 400; errors lists the exception types present
    on those failed calls, in order. *)
Theorem api_summary_counts (content : str) (key : str) :
  let self := fst (parse_logs __init__ content) in
  let calls := calls_of key (filter has_api (snd (parse_logs __init__ content))) in
  let failed := filter (fun e => is_failed e && negb (is_successful e)) calls in
  dict_get str_eqb key (get_api_summary self) =
  match calls with
  | [] => None
  | _ :: _ =>
      Some (ApiStats.mk (length calls)
              (length (filter is_successful calls))
              (length failed)
              (exception_types failed))
  end.
Proof.
  rewrite parse_logs_spec. simpl. unfold get_api_summary. simpl.
  rewrite api_summary_fold. simpl.
  assert (Hp : Forall parsed_entry
            (calls_of key (filter has_api (entries_from 0 (split_lines content))))).
  { apply calls_of_parsed. apply Forall_forall. intros e He.
    apply filter_In in He. destruct He as [He _].
    pose proof (entries_from_parsed (split_lines content) 0) as Ha.
    rewrite Forall_forall in Ha. auto. }
  destruct (calls_of key (filter has_api (entries_from 0 (split_lines content))))
    as [|e cs]; [reflexivity|].
  inversion Hp as [|e' cs' He Hcs]; subst.
  cbn [fold_left]. rewrite (api_stats_run Hcs).
  unfold api_stats_step at 1 2 3 4. cbn [api_stats_default].
  rewrite (parsed_status_lt_400 He), failed_condition,
    (parsed_exception_truthy He).
  cbn [filter length exception_types flat_map].
  destruct (is_successful e); simpl.
  - rewrite andb_false_r. reflexivity.
  - rewrite andb_true_r. destruct (is_failed e); simpl; [|reflexivity].
    destruct (exception_type e); reflexivity.
Qed.

(** A call with status 200 and the word error: flagged, yet counted as
    successful only. *)
Lemma flagged_success_not_failed :
  ~ failed_counts_every_failure (lit "GET /api/orders 200 error").
Proof.
  intros H.
  specialize (H (lit "GET /api/orders") (ApiStats.mk 1 1 0 [])).
  vm_compute in H. specialize (H eq_refl). discriminate.
Qed.

(** ** The error sequence *)

Lemma last_cons (A : Type) (x d : A) (l : list A) :
  last (x :: l) d = last l x.
Proof.
  revert x d. induction l as [|y l IH]; intros x d; [reflexivity|].
  change (last (x :: y :: l) d) with (last (y :: l) d).
  rewrite (IH y d), (IH y x). reflexivity.
Qed.

Lemma sequence_fold (l : list LogEntry) :
  forall total ok ko first last_api eapis,
    fold_left sequence_step l
      (ErrorSequence.mk total ok ko first last_api eapis) =
    ErrorSequence.mk total
      (ok ++ filter (fun e => negb (is_failed e)) l)
      (ko ++ filter is_failed l)
      (match first with
       | Some _ => first
       | None => hd_error (filter is_failed l)
       end)
      (last (map Some (apis_of (filter (fun e => negb (is_failed e)) l)))
         last_api)
      (eapis ++ apis_of (filter is_failed l)).
Proof.
  induction l as [|e l IH]; intros total ok ko first last_api eapis.
  - simpl. rewrite !app_nil_r. destruct first; reflexivity.
  - cbn [fold_left]. unfold sequence_step at 2. rewrite failed_condition.
    cbn [filter]. destruct (is_failed e); cbn [negb]; rewrite IH.
    + rewrite <- app_assoc. f_equal.
      * destruct first; reflexivity.
      * unfold apis_of. cbn [flat_map].
        destruct (api e); [rewrite <- app_assoc|]; reflexivity.
    + rewrite <- app_assoc. f_equal.
      unfold apis_of. cbn [flat_map].
      destruct (api e); [|reflexivity].
      cbn [app map]. rewrite last_cons. reflexivity.
Qed.

(** C5, as the code has it.  For an identifier whose journey is not empty,
    the failed requests are the entries of the sorted journey whose error
    flag is set or whose status code is at least 400, the successful ones
    are the others; total_requests is the length of the journey,
    first_error is the first failed entry, and last_successful_api is the
    API field of the last successful entry that has one (absent when no
    successful entry has an API field).  An empty journey gives no
    result. *)
Theorem error_sequence_spec (self : LogProcessor) (query : str) :
  let journey := get_user_journey self query in
  let ok := filter (fun e => negb (is_failed e)) journey in
  let ko := filter is_failed journey in
  match find_error_sequence self query with
  | None => journey = []
  | Some r =>
      journey <> []
      /\ ErrorSequence.total_requests r = length journey
      /\ ErrorSequence.successful_requests r = ok
      /\ ErrorSequence.failed_requests r = ko
      /\ ErrorSequence.first_error r = hd_error ko
      /\ ErrorSequence.last_successful_api r = last (map Some (apis_of ok)) None
      /\ ErrorSequence.error_apis r = apis_of ko
  end.
Proof.
  unfold find_error_sequence.
  destruct (get_user_journey self query) as [|e l] eqn:E; [reflexivity|].
  rewrite sequence_fold. simpl. repeat split. discriminate.
Qed.

(** The later successful request has no API call, yet the result names
    the API of the earlier one. *)
Lemma last_api_skips_entries_without_api :
  ~ last_api_of_last_success success_without_api (lit "abc123").
Proof.
  intros H.
  destruct (find_error_sequence (fst (parse_logs __init__ success_without_api))
              (lit "abc123")) as [r|] eqn:E.
  - specialize (H r E). vm_compute in E. inversion E; subst r.
    vm_compute in H. discriminate.
  - vm_compute in E. discriminate.
Qed.

(** ** Groups and spans of a match *)

Section Groups.

Variable ic : bool.
Variable s : str.

Lemma matches_sets (n : nat) (r : regex) :
  forall i c j c',
    matches ic s r i c j c' ->
    (cap_get n c <> None -> cap_get n c' <> None)
    /\ (sets n r = true -> cap_get n c' <> None).
Proof.
  induction r as [a| |r1 IH1 r2 IH2|r1 IH1 r2 IH2|a lo hi|m r IH|];
    intros i c j c' H; simpl in H |- *.
  - destruct H as [_ [_ ->]]. split; [auto | discriminate].
  - destruct H as [_ [_ ->]]. split; [auto | discriminate].
  - destruct H as [k [c1 [H1 H2]]].
    apply IH1 in H1. apply IH2 in H2. split; [tauto|].
    intros Hs. apply orb_true_iff in Hs. tauto.
  - split.
    + destruct H as [H | H]; [apply IH1 in H | apply IH2 in H]; tauto.
    + intros Hs. apply andb_true_iff in Hs.
      destruct H as [H | H]; [apply IH1 in H | apply IH2 in H]; tauto.
  - destruct H as [-> _]. split; [auto | discriminate].
  - destruct H as [c1 [H ->]]. apply IH in H. simpl.
    destruct (Nat.eqb m n) eqn:E; simpl; split; try discriminate; tauto.
  - destruct H as [_ ->]. split; [auto | discriminate].
Qed.

Lemma matches_span (r : regex) :
  forall i c j c',
    matches ic s r i c j c' ->
    i + minlen r <= j /\ (i < j -> j <= length s).
Proof.
  induction r as [a| |r1 IH1 r2 IH2|r1 IH1 r2 IH2|a lo hi|m r IH|];
    intros i c j c' H; simpl in H |- *.
  - destruct H as [Ha [-> _]]. apply accepts_at_lt in Ha. lia.
  - destruct H as [_ [-> _]]. lia.
  - destruct H as [k [c1 [H1 H2]]].
    apply IH1 in H1. apply IH2 in H2. lia.
  - destruct H as [H | H]; [apply IH1 in H | apply IH2 in H]; lia.
  - destruct H as [_ [Hij [Hlo [_ Hall]]]]. split; [lia|].
    intros Hlt.
    assert (j - 1 < length s)
      by (apply accepts_at_lt with (ic := ic) (a := a), Hall; lia).
    lia.
  - destruct H as [c1 [H _]]. apply IH in H. exact H.
  - destruct H as [-> _]. lia.
Qed.

Lemma matches_spans_ok (r : regex) :
  groups_nonempty r = true ->
  forall i c j c',
    matches ic s r i c j c' -> spans_ok s c -> spans_ok s c'.
Proof.
  induction r as [a| |r1 IH1 r2 IH2|r1 IH1 r2 IH2|a lo hi|m r IH|];
    intros Hg i c j c' H Hc; simpl in H, Hg.
  - destruct H as [_ [_ ->]]. exact Hc.
  - destruct H as [_ [_ ->]]. exact Hc.
  - apply andb_true_iff in Hg. destruct H as [k [c1 [H1 H2]]].
    eapply IH2; [tauto | exact H2 |]. eapply IH1; [tauto | exact H1 | exact Hc].
  - apply andb_true_iff in Hg.
    destruct H as [H | H]; [eapply IH1 | eapply IH2]; try exact H; tauto.
  - destruct H as [-> _]. exact Hc.
  - apply andb_true_iff in Hg. destruct Hg as [Hm Hg].
    assert (Hm1 : 1 <= minlen r) by (destruct (minlen r); [discriminate | lia]).
    destruct H as [c1 [H ->]].
    pose proof (matches_span _ _ _ _ _ H) as Hs.
    intros n a b Hn. simpl in Hn. destruct (Nat.eqb m n).
    + inversion Hn; subst. lia.
    + eapply IH; [exact Hg | exact H | exact Hc | exact Hn].
  - destruct H as [_ ->]. exact Hc.
Qed.

End Groups.

Lemma spans_ok_nil (s : str) : spans_ok s [].
Proof. intros n a b H. discriminate. Qed.

Lemma slice_truthy (s : str) (a b : nat) :
  a < b <= length s -> truthy_str (slice s a b) = true.
Proof.
  intros H. pose proof (slice_length s a (m := b)) as Hl.
  destruct (slice s a b); [simpl in Hl; lia | reflexivity].
Qed.

(** A group that every match sets, in a pattern whose groups are never
    empty, has a non-empty value. *)
Lemma group_takes_part (r : regex) (line : str) (ic : bool) (m : match_obj)
    (n : nat) :
  sets n r = true -> groups_nonempty r = true ->
  re_search r line ic = Some m ->
  cap_get n (m_caps m) <> None /\ truthy_str (group line m n) = true.
Proof.
  intros Hs Hg H. unfold re_search in H. apply search_sound in H.
  destruct H as [_ H].
  pose proof (proj2 (@matches_sets _ _ n _ _ _ _ _ H) Hs) as Hn.
  pose proof (@matches_spans_ok _ _ _ Hg _ _ _ _ H (spans_ok_nil line)) as Hok.
  split; [exact Hn|]. unfold group.
  destruct (cap_get n (m_caps m)) as [[a b]|] eqn:E; [|contradiction].
  apply slice_truthy. apply (Hok n). exact E.
Qed.

Lemma group0_truthy (r : regex) (line : str) (ic : bool) (m : match_obj) :
  1 <= minlen r -> re_search r line ic = Some m ->
  truthy_str (group0 line m) = true.
Proof.
  intros Hm H. unfold re_search in H. apply search_sound in H.
  destruct H as [_ H]. apply matches_span in H.
  unfold group0. apply slice_truthy. lia.
Qed.

(** The groups read by the extractors always take part. *)
Lemma groups_read_take_part :
  sets 1 patterns.log_level = true
  /\ sets 1 patterns.api_endpoint = true
  /\ sets 2 patterns.api_endpoint = true
  /\ sets 1 patterns.status_code = true
  /\ sets 1 exception_pattern = true
  /\ forall key, captured key = true -> sets 1 (pattern_of key) = true.
Proof.
  repeat split. intros key. destruct key; simpl; auto; discriminate.
Qed.

Lemma dict_set_truthy (key : kind) (v : str) (d : list (kind * str)) :
  truthy_str v = true ->
  Forall (fun kv => truthy_str (snd kv) = true) d ->
  Forall (fun kv => truthy_str (snd kv) = true) (dict_set kind_eqb key v d).
Proof.
  intros Hv. unfold dict_set. induction 1 as [|[k' v'] d Hk Hd IH]; simpl.
  - constructor; [exact Hv | constructor].
  - destruct (kind_eqb k' key); constructor; auto.
Qed.

(** Identifier values and timestamps are never empty. *)
Lemma identifiers_truthy (line : str) :
  Forall (fun kv => truthy_str (snd kv) = true) (_extract_identifiers line).
Proof.
  unfold _extract_identifiers.
  assert (H : forall keys ids,
             Forall (fun kv => truthy_str (snd kv) = true) ids ->
             Forall (fun kv => truthy_str (snd kv) = true)
               (fold_left
                  (fun ids key =>
                     match re_search (pattern_of key) line true with
                     | Some m =>
                         if captured key
                         then dict_set kind_eqb key (group line m 1) ids
                         else dict_set kind_eqb key (group0 line m) ids
                     | None => ids
                     end) keys ids)).
  { induction keys as [|key keys IH]; intros ids Hids; simpl; [exact Hids|].
    apply IH.
    destruct (re_search (pattern_of key) line true) as [m|] eqn:E;
      [|exact Hids].
    destruct (captured key) eqn:Ec; apply dict_set_truthy; auto.
    - apply (@group_takes_part (pattern_of key) line true m 1);
        [| |exact E]; destruct key; try discriminate; reflexivity.
    - apply (@group0_truthy (pattern_of key) line true m);
        [|exact E]; destruct key; try discriminate; simpl; lia. }
  apply H. constructor.
Qed.

Lemma timestamp_truthy (line t : str) :
  _extract_timestamp line = Some t -> truthy_str t = true.
Proof.
  unfold _extract_timestamp.
  destruct (re_search patterns.timestamp line false) as [m|] eqn:E;
    [|discriminate].
  intros H. inversion H; subst t.
  apply (@group0_truthy patterns.timestamp line false m);
    [simpl; lia | exact E].
Qed.

(** ** The order on strings *)

Lemma code_inj (x y : ascii) : code x = code y -> x = y.
Proof.
  unfold code. intros H. apply (f_equal ascii_of_N) in H.
  rewrite !ascii_N_embedding in H. exact H.
Qed.

Ltac compare_codes :=
  repeat match goal with
         | |- context [(?x <? ?y)%N] => destruct (N.ltb_spec x y)
         | H : context [(?x <? ?y)%N] |- _ => destruct (N.ltb_spec x y)
         end.

Lemma str_ltb_irrefl (a : str) : str_ltb a a = false.
Proof.
  induction a as [|x a IH]; simpl; [reflexivity|].
  compare_codes; try lia. exact IH.
Qed.

Lemma str_ltb_trans (a : str) :
  forall b c, str_ltb a b = true -> str_ltb b c = true -> str_ltb a c = true.
Proof.
  induction a as [|x a IH]; intros [|y b] [|z c]; simpl; try discriminate;
    auto.
  intros H1 H2. compare_codes; try discriminate; try lia; eauto.
Qed.

Lemma str_ltb_asym (a : str) :
  forall b, str_ltb a b = true -> str_ltb b a = false.
Proof.
  induction a as [|x a IH]; intros [|y b]; simpl; try discriminate; auto.
  intros H. compare_codes; try discriminate; try lia; auto.
Qed.

Lemma str_ltb_total (a : str) :
  forall b, str_ltb a b = false -> str_ltb b a = false -> a = b.
Proof.
  induction a as [|x a IH]; intros [|y b]; simpl; try discriminate; auto.
  intros H1 H2. compare_codes; try discriminate; try lia.
  f_equal; [apply code_inj; lia | auto].
Qed.

Lemma str_le_trans (a b c : str) :
  str_ltb b a = false -> str_ltb c b = false -> str_ltb c a = false.
Proof.
  intros H1 H2. destruct (str_ltb c a) eqn:E; [|reflexivity].
  destruct (str_ltb a b) eqn:Eab.
  - rewrite (str_ltb_trans _ _ _ E Eab) in H2. discriminate.
  - rewrite (str_ltb_total _ _ Eab H1) in E. congruence.
Qed.

Lemma str_ltb_nil_l (a : str) : a <> [] -> str_ltb [] a = true.
Proof. destruct a; [contradiction | reflexivity]. Qed.

(** ** The stable sort *)

Section SortFacts.

Variable T : Type.
Variable key : T -> str.

Lemma insert_sorted_perm (x : T) (l : list T) :
  Permutation (insert_sorted key x l) (x :: l).
Proof.
  induction l as [|y l IH]; simpl; [apply Permutation_refl|].
  destruct (str_ltb (key y) (key x)); [|apply Permutation_refl].
  apply perm_trans with (y :: x :: l); [apply perm_skip, IH | apply perm_swap].
Qed.

Lemma sort_by_perm (l : list T) : Permutation (sort_by key l) l.
Proof.
  induction l as [|x l IH]; simpl; [constructor|].
  apply perm_trans with (x :: sort_by key l);
    [apply insert_sorted_perm | apply perm_skip, IH].
Qed.

(** Entries with one key keep their order: an entry moves only past
    entries with a strictly smaller key. *)
Lemma insert_sorted_filter (k : str) (x : T) (l : list T) :
  filter (fun e => str_eqb (key e) k) (insert_sorted key x l) =
  filter (fun e => str_eqb (key e) k) (x :: l).
Proof.
  induction l as [|y l IH]; [reflexivity|].
  cbn [insert_sorted]. destruct (str_ltb (key y) (key x)) eqn:E;
    [|reflexivity].
  cbn [filter] in IH |- *. rewrite IH.
  destruct (str_eqb (key x) k) eqn:Ex; destruct (str_eqb (key y) k) eqn:Ey;
    try reflexivity.
  apply str_eqb_eq in Ex, Ey. rewrite Ex, Ey, str_ltb_irrefl in E.
  discriminate.
Qed.

Lemma sort_by_stable (k : str) (l : list T) :
  filter (fun e => str_eqb (key e) k) (sort_by key l) =
  filter (fun e => str_eqb (key e) k) l.
Proof.
  induction l as [|x l IH]; [reflexivity|].
  cbn [sort_by]. rewrite insert_sorted_filter. cbn [filter].
  rewrite IH. reflexivity.
Qed.

Lemma insert_sorted_sorted (x : T) (l : list T) :
  Sorted (le_by key) l -> Sorted (le_by key) (insert_sorted key x l).
Proof.
  induction l as [|y l IH]; intros H; simpl.
  - repeat constructor.
  - inversion H as [|y' l' Hl Hy]; subst.
    destruct (str_ltb (key y) (key x)) eqn:E.
    + constructor; [apply IH, Hl|].
      destruct l as [|z l]; simpl.
      * constructor. unfold le_by. apply str_ltb_asym, E.
      * destruct (str_ltb (key z) (key x)).
        -- inversion Hy; subst. constructor. assumption.
        -- constructor. unfold le_by. apply str_ltb_asym, E.
    + constructor; [exact H|]. constructor. exact E.
Qed.

Lemma sort_by_sorted (l : list T) : StronglySorted (le_by key) (sort_by key l).
Proof.
  apply Sorted_StronglySorted.
  - intros a b c Hab Hbc. unfold le_by in *.
    apply str_le_trans with (b := key b); assumption.
  - induction l as [|x l IH]; simpl; [constructor|].
    apply insert_sorted_sorted, IH.
Qed.

(** In a sorted list the entries with the empty key come first. *)
Lemma sorted_empty_keys_first (l : list T) :
  StronglySorted (le_by key) l ->
  exists l1 l2,
    l = l1 ++ l2 /\ Forall (fun e => key e = []) l1
    /\ Forall (fun e => key e <> []) l2.
Proof.
  induction 1 as [|x l Hl IH Hx].
  - exists [], []. repeat split; constructor.
  - destruct (key x) as [|c k] eqn:E.
    + destruct IH as [l1 [l2 [-> [H1 H2]]]].
      exists (x :: l1), l2. repeat split; [constructor; assumption | exact H2].
    + exists [], (x :: l). repeat split; [constructor|].
      constructor; [congruence|].
      apply Forall_forall. intros y Hy Hk.
      rewrite Forall_forall in Hx. specialize (Hx y Hy).
      unfold le_by in Hx. rewrite Hk, E in Hx. discriminate.
Qed.

End SortFacts.

(** ** Journeys *)

Lemma sort_key_timestamp (e : LogEntry) : sort_key e = timestamp_or_empty e.
Proof.
  unfold sort_key, timestamp_or_empty.
  destruct (timestamp e) as [[|c t]|]; reflexivity.
Qed.

Lemma parsed_key_empty (e : LogEntry) :
  parsed_entry e -> (timestamp_or_empty e = [] <-> timestamp e = None).
Proof.
  intros [idx [line ->]]. unfold timestamp_or_empty. simpl.
  destruct (_extract_timestamp line) as [t|] eqn:E; [|tauto].
  apply timestamp_truthy in E. destruct t; [discriminate|].
  split; discriminate.
Qed.

Lemma indexed_pairs (e : LogEntry) (ids : list (kind * str)) :
  forall m y,
    In y (concat (dict_values
                    (fold_left
                       (fun m kv =>
                          if truthy_str (snd kv)
                          then sessions_append (snd kv) e m else m) ids m)))
    <-> In y (concat (dict_values m))
        \/ (y = e /\ existsb (fun kv => truthy_str (snd kv)) ids = true).
Proof.
  induction ids as [|[k v] ids IH]; intros m y; simpl.
  - split; [auto | intros [H | [_ H]]; [exact H | discriminate]].
  - rewrite IH. destruct (truthy_str v); simpl.
    + unfold sessions_append. rewrite dict_values_upd_concat. tauto.
    + tauto.
Qed.

Lemma indexed_entries (es : list LogEntry) :
  forall m y,
    In y (concat (dict_values (fold_left index_entry es m)))
    <-> In y (concat (dict_values m))
        \/ (In y es
            /\ existsb (fun kv => truthy_str (snd kv)) (identifiers y) = true).
Proof.
  induction es as [|e es IH]; intros m y; simpl.
  - tauto.
  - rewrite IH. unfold index_entry. rewrite indexed_pairs. split.
    + intros [[H | [-> H]] | [H1 H2]]; auto.
    + intros [H | [[<- | H1] H2]]; auto.
Qed.

Lemma collect_journey_in (self : LogProcessor) (query : str) (e : LogEntry) :
  In e (collect_journey self query)
  <-> In e (concat (dict_values (user_sessions self)))
      /\ entry_matches query e = true.
Proof.
  unfold collect_journey. rewrite in_flat_map, in_concat. split.
  - intros [b [Hb He]]. apply filter_In in He. destruct He as [He Hm].
    split; [exists b; auto | exact Hm].
  - intros [[b [Hb He]] Hm]. exists b. split; [exact Hb|].
    apply filter_In. auto.
Qed.

Lemma entry_matches_spec (query : str) (e : LogEntry) :
  parsed_entry e ->
  (entry_matches query e = true <->
   exists k v, In (k, v) (identifiers e)
               /\ occurs (str_lower query) (str_lower v)).
Proof.
  intros [idx [line ->]]. unfold entry_matches, value_matches. simpl.
  pose proof (identifiers_truthy line) as Ht. rewrite Forall_forall in Ht.
  rewrite existsb_exists. split.
  - intros [[k v] [Hin Hm]]. apply andb_true_iff in Hm.
    destruct Hm as [_ Hm]. apply contains_spec in Hm. exists k, v. auto.
  - intros [k [v [Hin Ho]]]. exists (k, v). split; [exact Hin|].
    pose proof (Ht _ Hin) as Hv. simpl in Hv |- *. rewrite Hv. simpl.
    apply contains_spec. exact Ho.
Qed.

Lemma entry_matches_truthy (query : str) (e : LogEntry) :
  entry_matches query e = true ->
  existsb (fun kv => truthy_str (snd kv)) (identifiers e) = true.
Proof.
  unfold entry_matches, value_matches. rewrite !existsb_exists.
  intros [kv [Hin Hm]]. apply andb_true_iff in Hm. exists kv. tauto.
Qed.

(** C8.  After a document is parsed by a fresh engine, the journey of a
    query holds exactly the entries that have an identifier value
    containing the query as a substring up to letter case; it is sorted
    ascending by timestamp, an absent timestamp counting as the empty
    string; the sort is stable, entries with equal keys keeping the order
    in which they were collected; and the entries without a timestamp come
    before all the entries with one. *)
Theorem journey_spec (content query : str) :
  let self := fst (parse_logs __init__ content) in
  let parsed := snd (parse_logs __init__ content) in
  let journey := get_user_journey self query in
  (forall e,
     In e journey <->
     In e parsed
     /\ exists k v, In (k, v) (identifiers e)
                    /\ occurs (str_lower query) (str_lower v))
  /\ StronglySorted key_le journey
  /\ Permutation journey (collect_journey self query)
  /\ (forall k,
        filter (fun e => str_eqb (timestamp_or_empty e) k) journey =
        filter (fun e => str_eqb (timestamp_or_empty e) k)
          (collect_journey self query))
  /\ exists untimed timed,
       journey = untimed ++ timed
       /\ Forall (fun e => timestamp e = None) untimed
       /\ Forall (fun e => timestamp e <> None) timed.
Proof.
  intros self parsed journey.
  assert (Hparsed : forall e, In e parsed -> parsed_entry e).
  { subst parsed. rewrite parse_logs_spec. simpl.
    pose proof (entries_from_parsed (split_lines content) 0) as H.
    rewrite Forall_forall in H. exact H. }
  assert (Hperm : Permutation journey (collect_journey self query))
    by apply sort_by_perm.
  assert (Hmem : forall e,
             In e journey <->
             In e parsed
             /\ exists k v, In (k, v) (identifiers e)
                            /\ occurs (str_lower query) (str_lower v)).
  { intros e. split.
    - intros H. apply (Permutation_in _ Hperm) in H.
      apply collect_journey_in in H. destruct H as [Hi Hm].
      assert (He : In e parsed).
      { subst self parsed. rewrite parse_logs_spec in Hi |- *. simpl in Hi |- *.
        apply indexed_entries in Hi. destruct Hi as [[] | [Hi _]]. exact Hi. }
      split; [exact He|]. apply entry_matches_spec; auto.
    - intros [He Hm]. apply (Permutation_in _ (Permutation_sym Hperm)).
      apply collect_journey_in.
      assert (Hm' : entry_matches query e = true)
        by (apply entry_matches_spec; auto).
      split; [|exact Hm'].
      subst self parsed. rewrite parse_logs_spec in He |- *. simpl in He |- *.
      apply indexed_entries. right. split; [exact He|].
      apply entry_matches_truthy with (query := query). exact Hm'. }
  assert (Hsorted : StronglySorted key_le journey).
  { subst journey. unfold get_user_journey.
    pose proof (sort_by_sorted sort_key (collect_journey self query)) as H.
    clear - H. induction H as [|x l Hl IH Hx]; constructor; auto.
    clear - Hx. induction Hx as [|y l Hy Hl IH]; constructor; auto.
    unfold key_le, le_by in *. rewrite <- !sort_key_timestamp. exact Hy. }
  split; [exact Hmem|]. split; [exact Hsorted|]. split; [exact Hperm|]. split.
  - intros k. subst journey. unfold get_user_journey.
    assert (Hext : forall l,
               filter (fun e => str_eqb (timestamp_or_empty e) k) l =
               filter (fun e => str_eqb (sort_key e) k) l).
    { intros l. apply filter_ext. intros e. rewrite sort_key_timestamp.
      reflexivity. }
    rewrite !Hext. apply sort_by_stable.
  - destruct (@sorted_empty_keys_first _ timestamp_or_empty _ Hsorted)
      as [l1 [l2 [Hl [H1 H2]]]].
    exists l1, l2. split; [exact Hl|].
    assert (Hin : forall e, In e (l1 ++ l2) -> parsed_entry e).
    { intros e He. rewrite <- Hl in He. apply Hmem in He.
      apply Hparsed. tauto. }
    rewrite Forall_forall in H1, H2. split; apply Forall_forall; intros e He.
    + apply parsed_key_empty; [apply Hin, in_or_app; auto | auto].
    + intros Hn. apply (H2 e He).
      apply parsed_key_empty; [apply Hin, in_or_app; auto | exact Hn].
Qed.

(** The scenario of the specification: the entry without a timestamp is
    first, and the two entries with equal timestamps keep their order. *)
Example journey_scenario_order :
  map line_number
    (get_user_journey (fst (parse_logs __init__ journey_scenario)) (lit "abc"))
  = [2; 1; 3].
Proof. vm_compute. reflexivity. Qed.

(** * Further properties of the extractor *)

(** ** Characters *)

Lemma in_all_ascii (c : ascii) : In c all_ascii.
Proof.
  unfold all_ascii. apply in_map_iff. exists (nat_of_ascii c). split.
  - apply ascii_nat_embedding.
  - apply in_seq. pose proof (nat_ascii_bounded c). lia.
Qed.

(** A character equal to a capital letter up to case has that letter as its
    upper case. *)
Lemma upper_of_ci (x c : ascii) :
  between 65 90 c = true -> chr_eqb (lower x) (lower c) = true -> upper x = c.
Proof.
  intros Hc Hx.
  assert (H : forallb
            (fun x => forallb
               (fun c => implb (between 65 90 c && chr_eqb (lower x) (lower c))
                           (chr_eqb (upper x) c))
               all_ascii)
            all_ascii = true) by (vm_compute; reflexivity).
  rewrite forallb_forall in H. specialize (H x (in_all_ascii x)).
  rewrite forallb_forall in H. specialize (H c (in_all_ascii c)).
  rewrite Hc, Hx in H. simpl in H. apply chr_eqb_eq. exact H.
Qed.

Lemma prefix_ok_upper (w : str) :
  forallb (between 65 90) w = true ->
  forall u, prefix_ok true w u -> str_upper (firstn (length w) u) = w.
Proof.
  induction w as [|c w IH]; intros Hw u Hp; simpl in *; [reflexivity|].
  apply andb_true_iff in Hw. destruct Hw as [Hc Hw].
  destruct u as [|x u]; [contradiction|]. destruct Hp as [Hx Hp].
  simpl. rewrite (upper_of_ci _ _ Hc Hx), (IH Hw u Hp). reflexivity.
Qed.

Lemma prefix_ok_firstn (w u : str) :
  prefix_ok false w u -> firstn (length w) u = w.
Proof.
  intros H. apply prefix_ok_exact in H. destruct H as [post ->].
  rewrite <- (Nat.add_0_r (length w)), firstn_app_2. simpl. apply app_nil_r.
Qed.

(** ** The level *)

Lemma level_match (s : str) (i j : nat) (c' : caps) :
  matches true s patterns.log_level i [] j c' ->
  exists w, In w level_names /\ c' = [(1, (i, j))]
            /\ j = i + length w /\ prefix_ok true w (skipn i s).
Proof.
  intros [m0 [c0 [[_ [E0 F0]] [m1 [c1 [[c2 [Halt F1]] H]]]]]].
  destruct H as [m2 [c3 [[_ [E2 F2]] [E3 F3]]]]. subst.
  assert (Hw : exists w, In w level_names /\ matches true s (word w) i [] m1 c2).
  { destruct Halt as [H | [H | [H | [H | [H | [H | H]]]]]];
      eexists; (split; [|exact H]); simpl; auto 10. }
  destruct Hw as [w [Hin Hm]]. apply word_matches in Hm.
  destruct Hm as [-> [-> Hp]]. exists w. auto.
Qed.

Lemma level_of_match (line : str) (m : match_obj) :
  re_search patterns.log_level line true = Some m ->
  exists w, In w level_names /\ str_upper (group line m 1) = w
            /\ occurs_ci w line.
Proof.
  unfold re_search. intros H. apply search_sound in H. destruct H as [_ H].
  apply level_match in H. destruct H as [w [Hin [Hc [Hj Hp]]]].
  exists w. split; [exact Hin|]. split.
  - unfold group. rewrite Hc. simpl. unfold slice.
    replace (m_end m - m_start m) with (length w) by lia.
    apply prefix_ok_upper; [|exact Hp].
    simpl in Hin.
    destruct Hin as [<- | [<- | [<- | [<- | [<- | [<- | [<- | []]]]]]]];
      reflexivity.
  - apply prefix_ok_ci in Hp. destruct Hp as [mid [post [Hu Hm]]].
    exists (firstn (m_start m) line), mid, post. split; [|exact Hm].
    rewrite <- Hu. symmetry. apply firstn_skipn.
Qed.


(** X2.  An entry at level ERROR, and an entry with an exception type,
    always has its error flag set. *)
Theorem error_level_and_exception_are_flagged (idx : nat) (line : str) :
  (level (make_entry idx line) = lit "ERROR" ->
   has_error (make_entry idx line) = true)
  /\ (exception_type (make_entry idx line) <> None ->
      has_error (make_entry idx line) = true).
Proof.
  simpl. split.
  - unfold _extract_log_level.
    destruct (re_search patterns.log_level line true) as [m|] eqn:E;
      [|discriminate].
    apply level_of_match in E. destruct E as [w [_ [-> Ho]]]. intros ->.
    apply has_error_spec. right. left. destruct Ho as [pre [mid [post [Hl Hm]]]].
    exists pre, mid, post. split; [exact Hl|]. rewrite Hm. reflexivity.
  - destruct (_extract_exception line) as [t|] eqn:E; [|congruence].
    intros _. apply exception_value_shape in E.
    destruct E as [token [suffix [-> [_ [_ [Hs [pre [post Hl]]]]]]]].
    apply has_error_spec. right. right. right.
    assert (Ho : occurs suffix line).
    { exists (pre ++ token), post. rewrite Hl, <- !app_assoc. reflexivity. }
    apply occurs_lower in Ho. destruct Hs as [-> | ->]; auto.
Qed.

Lemma error_level_and_exception_are_flagged_witness :
  has_error (make_entry 0 (lit "10:00 ERROR disk full")) = true
  /\ has_error (make_entry 0 (lit "raised KeyError")) = true.
Proof.
  split.
  - apply (proj1 (error_level_and_exception_are_flagged 0
                    (lit "10:00 ERROR disk full"))).
    reflexivity.
  - apply (proj2 (error_level_and_exception_are_flagged 0
                    (lit "raised KeyError"))).
    discriminate.
Defined.

(** ** Patterns of fixed length *)

Lemma fits_app (ic : bool) (l1 l2 : list atom) (t1 t2 : str) :
  fits ic l1 t1 = true -> fits ic l2 t2 = true ->
  fits ic (l1 ++ l2) (t1 ++ t2) = true.
Proof.
  revert t1. induction l1 as [|a l1 IH]; intros [|x t1] H1 H2; simpl in *;
    try discriminate; auto.
  apply andb_true_iff in H1. destruct H1 as [Ha H1].
  rewrite Ha. simpl. auto.
Qed.

Lemma fits_length (ic : bool) (l : list atom) :
  forall t, fits ic l t = true -> length t = length l.
Proof.
  induction l as [|a l IH]; intros [|x t] H; simpl in *; try discriminate;
    auto.
  apply andb_true_iff in H. destruct H as [_ H]. f_equal. auto.
Qed.

Lemma skipn_app_split (s t post : str) (i : nat) :
  skipn i s = t ++ post -> skipn (i + length t) s = post.
Proof.
  intros H. rewrite Nat.add_comm, <- skipn_skipn, H. apply skipn_app_length.
Qed.

Lemma repeat_fits (ic : bool) (s : str) (a : atom) (n : nat) :
  forall i,
    (forall t, i <= t < i + n -> accepts_at ic s a t = true) ->
    exists t post,
      skipn i s = t ++ post /\ fits ic (repeat a n) t = true.
Proof.
  induction n as [|n IH]; intros i H.
  - exists [], (skipn i s). auto.
  - assert (Hi : accepts_at ic s a i = true) by (apply H; lia).
    unfold accepts_at in Hi.
    destruct (nth_error s i) as [x|] eqn:E; [|discriminate].
    destruct (IH (S i)) as [t [post [Hs Hf]]]; [intros; apply H; lia|].
    exists (x :: t), post. split.
    + rewrite (skipn_nth_error _ _ E), Hs. reflexivity.
    + simpl. rewrite Hi, Hf. reflexivity.
Qed.

(** A match of a pattern of fixed length takes just the characters that
    fit its one-character patterns, and sets no group. *)
Lemma atoms_match (ic : bool) (s : str) (r : regex) :
  forall l i c j c',
    atoms_of r = Some l -> matches ic s r i c j c' ->
    c' = c /\ exists t post,
      skipn i s = t ++ post /\ fits ic l t = true /\ j = i + length t.
Proof.
  induction r as [a| |r1 IH1 r2 IH2|r1 IH1 r2 IH2|a lo hi|n r IH|];
    intros l i c j c' Hl H; simpl in Hl, H; try discriminate.
  - inversion Hl; subst l. destruct H as [Ha [-> ->]]. split; [reflexivity|].
    unfold accepts_at in Ha.
    destruct (nth_error s i) as [x|] eqn:E; [|discriminate].
    exists [x], (skipn (S i) s). simpl. rewrite Ha.
    split; [apply skipn_nth_error, E | split; [reflexivity | lia]].
  - destruct (atoms_of r1) as [l1|]; [|discriminate].
    destruct (atoms_of r2) as [l2|]; [|discriminate].
    inversion Hl; subst l. destruct H as [m [c1 [H1 H2]]].
    destruct (IH1 _ _ _ _ _ eq_refl H1) as [-> [t1 [post1 [Hs1 [Hf1 ->]]]]].
    destruct (IH2 _ _ _ _ _ eq_refl H2) as [-> [t2 [post2 [Hs2 [Hf2 ->]]]]].
    split; [reflexivity|]. exists (t1 ++ t2), post2.
    rewrite (@skipn_app_split _ _ _ _ Hs1) in Hs2.
    rewrite Hs1, Hs2, <- app_assoc, length_app.
    split; [reflexivity | split; [apply fits_app; assumption | lia]].
  - destruct hi as [h|]; [|discriminate].
    destruct (Nat.eqb lo h) eqn:E; [|discriminate].
    apply Nat.eqb_eq in E. subst h. inversion Hl; subst l.
    destruct H as [-> [Hij [Hlo [Hhi Hall]]]]. specialize (Hhi lo eq_refl).
    split; [reflexivity|].
    destruct (@repeat_fits ic s a lo i) as [t [post [Hs Hf]]].
    { intros t Ht. apply Hall. lia. }
    exists t, post. split; [exact Hs|]. split; [exact Hf|].
    apply fits_length in Hf. rewrite repeat_length in Hf. lia.
  - inversion Hl; subst l. destruct H as [-> ->]. split; [reflexivity|].
    exists [], (skipn i s). simpl. auto.
Qed.

Lemma slice_of_split (s t post : str) (i : nat) :
  skipn i s = t ++ post -> slice s i (i + length t) = t.
Proof.
  intros H. unfold slice. rewrite H.
  replace (i + length t - i) with (length t + 0) by lia.
  rewrite firstn_app_2. simpl. apply app_nil_r.
Qed.

Lemma occurs_of_split (s t post : str) (i : nat) :
  skipn i s = t ++ post -> occurs t s.
Proof.
  intros H. exists (firstn i s), post. rewrite <- H. symmetry.
  apply firstn_skipn.
Qed.

(** X3.  A timestamp, when present, is a piece of the line of 19
    characters of the shape dddd-dd-dd, a white-space character or T,
    dd:dd:dd, stored as found. *)
Theorem timestamp_shape_ok (idx : nat) (line : str) :
  match timestamp (make_entry idx line) with
  | None => True
  | Some t =>
      fits false timestamp_shape t = true /\ length t = 19 /\ occurs t line
  end.
Proof.
  simpl. unfold _extract_timestamp, re_search.
  destruct (search false line patterns.timestamp) as [m|] eqn:E; [|exact I].
  apply search_sound in E. destruct E as [_ E].
  apply (@atoms_match false line patterns.timestamp timestamp_shape) in E;
    [|reflexivity].
  destruct E as [_ [t [post [Hs [Hf Hj]]]]].
  unfold group0. rewrite Hj, (@slice_of_split _ _ _ _ Hs).
  split; [exact Hf|]. split.
  - apply fits_length in Hf. exact Hf.
  - apply (@occurs_of_split _ _ _ _ Hs).
Qed.

(** ** The API call *)

Lemma accepts_nonspace (s : str) (t : nat) :
  accepts_at false s (Cls true [CSpace]) t = true ->
  match nth_error s t with
  | Some x => negb (isspace x)
  | None => false
  end = true.
Proof.
  unfold accepts_at. destruct (nth_error s t) as [x|]; [|discriminate].
  simpl. unfold item_ok. simpl. rewrite orb_false_r. auto.
Qed.

Lemma api_match (s : str) (i j : nat) (c' : caps) :
  matches false s patterns.api_endpoint i [] j c' ->
  exists w m1 m2,
    In w api_methods /\ c' = [(2, (m2, j)); (1, (i, m1))]
    /\ slice s i m1 = w
    /\ nth_error s m2 = Some (ch "/") /\ m2 < j <= length s
    /\ forall t, S m2 <= t < j ->
         match nth_error s t with
         | Some x => negb (isspace x)
         | None => false
         end = true.
Proof.
  intros [m1 [c1 [[c0 [Halt F1]] [m2 [c2 [Hrep H]]]]]].
  destruct Hrep as [F2 _].
  destruct H as [m3 [c3 [[c4 [Hg F3]] [E3 F4]]]].
  destruct Hg as [m4 [c5 [[Hslash [E4 F5]] [F6 [Hle [_ [_ Hall]]]]]]].
  subst.
  assert (Hw : exists w, In w api_methods
             /\ matches false s (word w) i [] m1 c0).
  { destruct Halt as [H | [H | [H | [H | H]]]];
      eexists; (split; [|exact H]); simpl; auto 10. }
  destruct Hw as [w [Hin Hm]]. apply word_matches in Hm.
  destruct Hm as [-> [-> Hp]].
  exists w, (i + length w), m2. split; [exact Hin|]. split; [reflexivity|].
  split.
  { unfold slice. replace (i + length w - i) with (length w) by lia.
    apply prefix_ok_firstn, Hp. }
  unfold accepts_at in Hslash.
  destruct (nth_error s m2) as [x|] eqn:E; [|discriminate].
  simpl in Hslash. apply chr_eqb_eq in Hslash. subst x.
  split; [reflexivity|]. split.
  - split; [lia|]. destruct (Nat.eq_dec m3 (S m2)) as [-> | Hne].
    + assert (m2 < length s) by (apply nth_error_Some; congruence). lia.
    + assert (m3 - 1 < length s)
        by (apply accepts_at_lt with (ic := false) (a := Cls true [CSpace]),
              Hall; lia).
      lia.
  - intros t Ht. apply accepts_nonspace, Hall. lia.
Qed.

(** X4.  An API call, when present, has one of the five methods GET,
    POST, PUT, DELETE, PATCH, and an endpoint that starts with a slash and
    holds no white space; both are pieces of the line. *)
Theorem api_call_shape (idx : nat) (line : str) :
  match api (make_entry idx line) with
  | None => True
  | Some a =>
      In (method a) api_methods
      /\ (exists rest,
            endpoint a = ch "/" :: rest
            /\ forallb (fun x => negb (isspace x)) rest = true)
      /\ occurs (method a) line /\ occurs (endpoint a) line
  end.
Proof.
  simpl. unfold _extract_api_call, re_search.
  destruct (search false line patterns.api_endpoint) as [m|] eqn:E;
    [|exact I].
  apply search_sound in E. destruct E as [_ E]. apply api_match in E.
  destruct E as [w [m1 [m2 [Hin [Hc [Hw [Hsl [Hj Hall]]]]]]]].
  simpl. unfold group. rewrite Hc. simpl.
  assert (Hm1 : m_start m <= m1).
  { destruct (Nat.le_gt_cases (m_start m) m1) as [H | H]; [exact H|].
    exfalso. unfold slice in Hw.
    replace (m1 - m_start m) with 0 in Hw by lia. simpl in Hw. subst w.
    simpl in Hin. repeat (destruct Hin as [Hin | Hin]; [discriminate|]).
    contradiction. }
  rewrite Hw. split; [exact Hin|]. split; [|split].
  - exists (slice line (S m2) (m_end m)). split.
    + unfold slice. rewrite (skipn_nth_error _ _ Hsl).
      replace (m_end m - m2) with (S (m_end m - S m2)) by lia. reflexivity.
    + apply slice_forallb. exact Hall.
  - rewrite <- Hw. apply slice_occurs. exact Hm1.
  - apply slice_occurs. lia.
Qed.

(** ** The identifiers *)

(** X5.  The identifiers of an entry have one pair for each kind whose
    pattern matches the line, in the fixed order user_id, username, email,
    trace_id, request_id, session_id, ip_address, and no value is empty. *)
Theorem identifiers_keys (idx : nat) (line : str) :
  map fst (identifiers (make_entry idx line)) =
  filter (fun k => is_some (re_search (pattern_of k) line true))
    identifier_keys
  /\ NoDup (map fst (identifiers (make_entry idx line)))
  /\ Forall (fun kv => snd kv <> []) (identifiers (make_entry idx line)).
Proof.
  assert (Hk : map fst (_extract_identifiers line) =
               filter (fun k => is_some (re_search (pattern_of k) line true))
                 identifier_keys).
  { unfold _extract_identifiers, identifier_keys.
    cbn [fold_left filter pattern_of captured].
    destruct (re_search patterns.user_id line true);
      destruct (re_search patterns.username line true);
      destruct (re_search patterns.email line true);
      destruct (re_search patterns.trace_id line true);
      destruct (re_search patterns.request_id line true);
      destruct (re_search patterns.session_id line true);
      destruct (re_search patterns.ip_address line true);
      reflexivity. }
  simpl. split; [exact Hk|]. split.
  - rewrite Hk. apply NoDup_filter. unfold identifier_keys.
    repeat constructor; simpl; intuition discriminate.
  - pose proof (identifiers_truthy line) as H.
    rewrite Forall_forall in H |- *. intros [k v] Hin Hnil.
    specialize (H (k, v) Hin). simpl in H, Hnil. subst v. discriminate.
Qed.

(** * Further properties of the engine *)

(** ** Frequency maps *)

Section Tally.

Variable K : Type.
Variable eqb : K -> K -> bool.
Hypothesis eqb_eq : forall a b, eqb a b = true <-> a = b.

Lemma eqb_refl_true (k : K) : eqb k k = true.
Proof. apply eqb_eq. reflexivity. Qed.

Lemma dict_upd_keys (V : Type) (k : K) (f : option V -> V) (d : dict K V) :
  dict_keys (dict_upd eqb k f d) =
  if existsb (fun k' => eqb k' k) (dict_keys d) then dict_keys d
  else dict_keys d ++ [k].
Proof.
  unfold dict_keys. induction d as [|[k' v] d IH]; simpl; [reflexivity|].
  destruct (eqb k' k); simpl; [reflexivity|].
  rewrite IH. destruct (existsb (fun k'0 => eqb k'0 k) (map fst d));
    reflexivity.
Qed.

Lemma dict_upd_keys_in (V : Type) (k k' : K) (f : option V -> V)
    (d : dict K V) :
  In k' (dict_keys (dict_upd eqb k f d)) <-> In k' (dict_keys d) \/ k' = k.
Proof.
  rewrite dict_upd_keys.
  destruct (existsb (fun k0 => eqb k0 k) (dict_keys d)) eqn:E.
  - apply existsb_exists in E. destruct E as [k0 [Hin Hk]].
    apply eqb_eq in Hk. subst k0. split; [auto | intros [H | ->]; auto].
  - rewrite in_app_iff. simpl. intuition.
Qed.

Lemma dict_upd_keys_nodup (V : Type) (k : K) (f : option V -> V)
    (d : dict K V) :
  NoDup (dict_keys d) -> NoDup (dict_keys (dict_upd eqb k f d)).
Proof.
  intros H. rewrite dict_upd_keys.
  destruct (existsb (fun k0 => eqb k0 k) (dict_keys d)) eqn:E; [exact H|].
  apply NoDup_app; [exact H | repeat constructor; simpl; tauto |].
  intros x Hx [Hk | []]. subst x.
  assert (existsb (fun k0 => eqb k0 k) (dict_keys d) = true).
  { apply existsb_exists. exists k. split; [exact Hx | apply eqb_refl_true]. }
  congruence.
Qed.

Lemma dict_get_in_keys (V : Type) (k : K) (d : dict K V) :
  dict_get eqb k d <> None <-> In k (dict_keys d).
Proof.
  unfold dict_keys. induction d as [|[k' v] d IH]; simpl.
  - split; [congruence | tauto].
  - destruct (eqb k' k) eqn:E.
    + apply eqb_eq in E. split; [auto | discriminate].
    + rewrite IH. split; [auto|]. intros [H | H]; [|exact H].
      subst k'. rewrite eqb_refl_true in E. discriminate.
Qed.

(** Counting the keys [g x] of the items [x] of a list. *)
Lemma tally_get (A : Type) (g : A -> option K) (k : K) (l : list A) :
  forall d,
    dict_get eqb k
      (fold_left
         (fun d x => match g x with
                     | Some k' => count_up eqb k' d
                     | None => d
                     end) l d) =
    let n := count_if
               (fun x => match g x with Some k' => eqb k' k | None => false end)
               l in
    match dict_get eqb k d with
    | Some m => Some (m + n)
    | None => counted n
    end.
Proof.
  unfold count_if.
  induction l as [|x l IH]; intros d; simpl.
  - destruct (dict_get eqb k d); [rewrite Nat.add_0_r|]; reflexivity.
  - rewrite IH. destruct (g x) as [k'|]; [|reflexivity].
    unfold count_up. rewrite (@dict_get_upd _ _ _ eqb_eq).
    destruct (eqb k' k) eqn:E; [|reflexivity].
    apply eqb_eq in E. subst k'. simpl.
    destruct (dict_get eqb k d) as [m|]; simpl.
    + f_equal. lia.
    + reflexivity.
Qed.

Lemma tally_nodup (A : Type) (g : A -> option K) (l : list A) :
  forall d,
    NoDup (dict_keys d) ->
    NoDup (dict_keys
             (fold_left
                (fun d x => match g x with
                            | Some k' => count_up eqb k' d
                            | None => d
                            end) l d)).
Proof.
  induction l as [|x l IH]; intros d H; simpl; [exact H|].
  apply IH. destruct (g x); [|exact H].
  unfold count_up. apply dict_upd_keys_nodup. exact H.
Qed.

End Tally.

Lemma fold_left_ext (A B : Type) (f g : A -> B -> A) (l : list B) :
  (forall a b, f a b = g a b) ->
  forall a, fold_left f l a = fold_left g l a.
Proof.
  intros H. induction l as [|b l IH]; intros a; simpl; [reflexivity|].
  rewrite H. apply IH.
Qed.

Lemma Z_eqb_eq (a b : Z) : Z.eqb a b = true <-> a = b.
Proof. apply Z.eqb_eq. Qed.

(** ** Statistics *)

(** The status of one entry as the key that is counted, if any. *)
Lemma status_tally (l : list LogEntry) (d : dict Z nat) :
  fold_left
    (fun codes log =>
       match status_code log with
       | Some c => if truthy_int c then count_up Z.eqb c codes else codes
       | None => codes
       end) l d =
  fold_left
    (fun d e =>
       match (match status_code e with
              | Some c => if truthy_int c then Some c else None
              | None => None
              end) with
       | Some k' => count_up Z.eqb k' d
       | None => d
       end) l d.
Proof.
  apply fold_left_ext. intros a e.
  destruct (status_code e) as [c|]; [|reflexivity].
  destruct (truthy_int c); reflexivity.
Qed.

Lemma status_count (c : Z) (l : list LogEntry) :
  c <> 0%Z ->
  count_if
    (fun e =>
       match (match status_code e with
              | Some c' => if truthy_int c' then Some c' else None
              | None => None
              end) with
       | Some k' => Z.eqb k' c
       | None => false
       end) l =
  count_if (has_status c) l.
Proof.
  intros Hc. unfold count_if. f_equal. apply filter_ext. intros e.
  unfold has_status. destruct (status_code e) as [c'|]; [|reflexivity].
  unfold truthy_int. destruct (Z.eqb_spec c' 0); simpl; [|reflexivity].
  subst c'. symmetry. apply Z.eqb_neq. congruence.
Qed.

(** X6.  In the statistics of any engine state the status-code map holds,
    for each code other than 0, the number of entries with that status
    code, and no key for a code that no entry has; its keys are
    distinct. *)
Theorem status_codes_histogram (self : LogProcessor) (c : Z) :
  c <> 0%Z ->
  dict_get Z.eqb c (Statistics.status_codes (get_statistics self)) =
  counted (count_if (has_status c) (logs self))
  /\ NoDup (dict_keys (Statistics.status_codes (get_statistics self))).
Proof.
  intros Hc. simpl. rewrite status_tally. split.
  - rewrite (@tally_get _ _ Z_eqb_eq). simpl. rewrite (status_count _ Hc).
    reflexivity.
  - apply (@tally_nodup _ _ Z_eqb_eq). constructor.
Qed.

Lemma status_codes_histogram_witness :
  dict_get Z.eqb 500%Z
    (Statistics.status_codes
       (get_statistics (fst (parse_logs __init__ one_failed_call)))) =
  counted (count_if (has_status 500%Z)
             (logs (fst (parse_logs __init__ one_failed_call)))).
Proof.
  refine (proj1 (@status_codes_histogram
                   (fst (parse_logs __init__ one_failed_call)) 500%Z _)).
  lia.
Defined.

(** X7.  After one document is parsed by a fresh engine, the error list
    and the API-call list are the entries with the error flag and with an
    API call, in order, and the statistics agree with them: errors and
    api_calls are their lengths and never exceed total_logs. *)
Theorem fresh_parse_lists (content : str) :
  let self := fst (parse_logs __init__ content) in
  let stats := get_statistics self in
  errors self = filter has_error (logs self)
  /\ api_calls self = filter has_api (logs self)
  /\ Statistics.errors stats = length (errors self)
  /\ Statistics.api_calls stats = count_if has_api (logs self)
  /\ Statistics.errors stats <= Statistics.total_logs stats
  /\ Statistics.api_calls stats <= Statistics.total_logs stats.
Proof.
  rewrite parse_logs_spec. simpl. unfold count_if.
  repeat split; try reflexivity; apply filter_length_le.
Qed.

(** ** Common patterns *)

Lemma patterns_fold (es : list LogEntry) :
  forall p,
    fold_left patterns_step es p =
    Patterns.mk
      (fold_left
         (fun d e => match truthy_exception e with
                     | Some k' => count_up str_eqb k' d
                     | None => d
                     end) es (Patterns.most_common_exceptions p))
      (fold_left
         (fun d e => match (match api e with
                            | Some a => Some (endpoint_key a)
                            | None => None
                            end) with
                     | Some k' => count_up str_eqb k' d
                     | None => d
                     end) es (Patterns.most_failed_apis p))
      (fold_left
         (fun codes log =>
            match status_code log with
            | Some c => if truthy_int c then count_up Z.eqb c codes else codes
            | None => codes
            end) es (Patterns.error_by_status_code p))
      (fold_left
         (fun us e =>
            fold_left
              (fun us kv =>
                 if truthy_str (snd kv) then set_add (snd kv) us else us)
              (identifiers e) us) es (Patterns.affected_users p)).
Proof.
  induction es as [|e es IH]; intros [a b c d]; simpl; [reflexivity|].
  rewrite IH. simpl. destruct (api e); reflexivity.
Qed.

(** X8.  The common-pattern report counts, over the error list of any
    engine state: for each non-empty exception type the error entries with
    that type, for each endpoint key the error entries with that API call,
    and for each status code other than 0 the error entries with that
    code; a key that was never counted is absent. *)
Theorem common_patterns_counts (self : LogProcessor) (t key : str) (c : Z) :
  t <> [] -> c <> 0%Z ->
  let report := find_common_patterns self in
  dict_get str_eqb t (Patterns.most_common_exceptions report) =
  counted (count_if (has_exception t) (errors self))
  /\ dict_get str_eqb key (Patterns.most_failed_apis report) =
     counted (count_if (has_endpoint key) (errors self))
  /\ dict_get Z.eqb c (Patterns.error_by_status_code report) =
     counted (count_if (has_status c) (errors self)).
Proof.
  intros Ht Hc. unfold find_common_patterns. rewrite patterns_fold. simpl.
  split; [|split].
  - rewrite (@tally_get _ _ str_eqb_eq). simpl. unfold count_if. f_equal.
    f_equal. apply filter_ext. intros e. unfold truthy_exception, has_exception.
    destruct (exception_type e) as [[|x t']|]; try reflexivity.
    simpl. destruct t; [contradiction | reflexivity].
  - rewrite (@tally_get _ _ str_eqb_eq). simpl. unfold count_if. f_equal.
    f_equal. apply filter_ext. intros e. unfold has_endpoint.
    destruct (api e); reflexivity.
  - rewrite status_tally, (@tally_get _ _ Z_eqb_eq). simpl.
    rewrite (status_count _ Hc). reflexivity.
Qed.

Lemma common_patterns_counts_witness :
  dict_get str_eqb (lit "NullPointerException")
    (Patterns.most_common_exceptions
       (find_common_patterns (fst (parse_logs __init__ one_failed_call)))) =
  counted (count_if (has_exception (lit "NullPointerException"))
             (errors (fst (parse_logs __init__ one_failed_call)))).
Proof.
  refine (proj1 (@common_patterns_counts
                   (fst (parse_logs __init__ one_failed_call))
                   (lit "NullPointerException") (lit "GET /api/orders")
                   500%Z _ _)).
  - discriminate.
  - lia.
Defined.

Lemma set_add_in (v x : str) (l : list str) :
  In x (set_add v l) <-> In x l \/ x = v.
Proof.
  unfold set_add. destruct (existsb (str_eqb v) l) eqn:E.
  - apply existsb_exists in E. destruct E as [y [Hy Hv]].
    apply str_eqb_eq in Hv. subst y. split; [auto | intros [H | ->]; auto].
  - rewrite in_app_iff. simpl. intuition.
Qed.

Lemma set_add_nodup (v : str) (l : list str) :
  NoDup l -> NoDup (set_add v l).
Proof.
  intros H. unfold set_add. destruct (existsb (str_eqb v) l) eqn:E; [exact H|].
  apply NoDup_app; [exact H | repeat constructor; simpl; tauto |].
  intros x Hx [Hv | []]. subst x.
  assert (existsb (str_eqb v) l = true)
    by (apply existsb_exists; exists v; split; [exact Hx | apply str_eqb_refl]).
  congruence.
Qed.

Lemma users_of_entry (e : LogEntry) (ids : list (kind * str)) :
  forall us,
    let us' := fold_left
                 (fun us kv =>
                    if truthy_str (snd kv) then set_add (snd kv) us else us)
                 ids us in
    (NoDup us -> NoDup us')
    /\ forall x, In x us' <->
                 In x us \/ exists k, In (k, x) ids /\ x <> [].
Proof.
  induction ids as [|[k v] ids IH]; intros us; simpl.
  - split; [auto|]. intros x. split; [auto|].
    intros [H | [k [[] _]]]. exact H.
  - destruct (IH (if truthy_str v then set_add v us else us)) as [Hn Hi].
    split.
    + intros H. apply Hn. destruct (truthy_str v); [apply set_add_nodup|];
        exact H.
    + intros x. rewrite Hi. destruct v as [|y v]; simpl.
      * split.
        -- intros [H | [k' [H1 H2]]]; [auto | right; exists k'; auto].
        -- intros [H | [k' [[H1 | H1] H2]]]; [auto | | right; eauto].
           inversion H1; subst. contradiction.
      * rewrite set_add_in. split.
        -- intros [[H | ->] | [k' [H1 H2]]]; [auto | | right; eauto].
           right. exists k. split; [auto | discriminate].
        -- intros [H | [k' [[H1 | H1] H2]]]; [auto | | right; eauto].
           inversion H1; subst. auto.
Qed.

(** X9.  The affected users of the common-pattern report are exactly the
    non-empty identifier values of the entries of the error list, each
    listed once. *)
Theorem affected_users_spec (self : LogProcessor) (v : str) :
  let users := Patterns.affected_users (find_common_patterns self) in
  NoDup users
  /\ (In v users <-> exists e, In e (errors self) /\ carries v e).
Proof.
  unfold find_common_patterns. rewrite patterns_fold. simpl.
  assert (H : forall es us,
             let us' := fold_left
                          (fun us e =>
                             fold_left
                               (fun us kv =>
                                  if truthy_str (snd kv)
                                  then set_add (snd kv) us else us)
                               (identifiers e) us) es us in
             (NoDup us -> NoDup us')
             /\ forall x, In x us' <->
                          In x us \/ exists e, In e es /\ carries x e).
  { induction es as [|e es IH]; intros us; simpl.
    - split; [auto|]. intros x. split; [auto|].
      intros [Hx | [e [[] _]]]. exact Hx.
    - destruct (users_of_entry e (identifiers e) us) as [Hn1 Hi1].
      destruct (IH (fold_left
                      (fun us kv =>
                         if truthy_str (snd kv) then set_add (snd kv) us
                         else us) (identifiers e) us)) as [Hn2 Hi2].
      split; [auto|]. intros x. rewrite Hi2, Hi1. unfold carries. split.
      + intros [[Hx | Hx] | [e' [H1 H2]]]; [auto | right; exists e; auto |].
        right. exists e'. auto.
      + intros [Hx | [e' [[<- | H1] H2]]]; [auto | auto |].
        right. exists e'. auto. }
  destruct (H (errors self) []) as [Hn Hi]. split.
  - apply Hn. constructor.
  - rewrite Hi. simpl. split; [intros [[] | Hx]; exact Hx | auto].
Qed.

(** ** The index over several parses *)

Lemma parse_all_ind (P : LogProcessor -> Prop) :
  P __init__ ->
  (forall self content, P self -> P (fst (parse_logs self content))) ->
  forall docs, P (parse_all docs).
Proof.
  intros H0 Hstep docs. unfold parse_all.
  generalize dependent __init__. induction docs as [|d docs IH];
    intros self H; simpl; [exact H|].
  apply IH. apply Hstep. exact H.
Qed.

Lemma parse_all_sessions (docs : list str) :
  user_sessions (parse_all docs) =
  fold_left index_entry (all_entries docs) [].
Proof.
  unfold parse_all, all_entries.
  change (@nil (str * list LogEntry)) with (user_sessions __init__).
  generalize __init__. induction docs as [|d docs IH]; intros self; simpl;
    [reflexivity|].
  rewrite IH, parse_logs_spec. simpl. rewrite fold_left_app. reflexivity.
Qed.

Lemma all_entries_parsed (docs : list str) :
  Forall parsed_entry (all_entries docs).
Proof.
  unfold all_entries. apply Forall_forall. intros e He.
  apply in_flat_map in He. destruct He as [d [_ He]].
  pose proof (entries_from_parsed (split_lines d) 0) as H.
  rewrite Forall_forall in H. auto.
Qed.

Lemma truthy_iff (v : str) : truthy_str v = true <-> v <> [].
Proof. destruct v; simpl; split; congruence. Qed.

Lemma index_keys_entry (e : LogEntry) (ids : list (kind * str)) :
  forall m,
    let m' := fold_left
                (fun m kv =>
                   if truthy_str (snd kv) then sessions_append (snd kv) e m
                   else m) ids m in
    (NoDup (dict_keys m) -> NoDup (dict_keys m'))
    /\ forall v, In v (dict_keys m') <->
                 In v (dict_keys m) \/ exists k, In (k, v) ids /\ v <> [].
Proof.
  induction ids as [|[k v0] ids IH]; intros m; simpl.
  - split; [auto|]. intros v. split; [auto|].
    intros [H | [k [[] _]]]. exact H.
  - destruct (IH (if truthy_str v0 then sessions_append v0 e m else m))
      as [Hn Hi].
    split.
    + intros H. apply Hn. destruct (truthy_str v0); [|exact H].
      unfold sessions_append. apply (@dict_upd_keys_nodup _ _ str_eqb_eq). exact H.
    + intros v. rewrite Hi. destruct (truthy_str v0) eqn:Ev.
      * unfold sessions_append. rewrite (@dict_upd_keys_in _ _ str_eqb_eq).
        apply truthy_iff in Ev. split.
        -- intros [[H | ->] | [k' [H1 H2]]]; [auto | | right; eauto].
           right. exists k. auto.
        -- intros [H | [k' [[H1 | H1] H2]]]; [auto | | right; eauto].
           inversion H1; subst. auto.
      * split.
        -- intros [H | [k' [H1 H2]]]; [auto | right; eauto].
        -- intros [H | [k' [[H1 | H1] H2]]]; [auto | | right; eauto].
           inversion H1; subst. apply truthy_iff in H2. congruence.
Qed.

Lemma index_keys_all (es : list LogEntry) :
  forall m,
    (NoDup (dict_keys m) -> NoDup (dict_keys (fold_left index_entry es m)))
    /\ forall v, In v (dict_keys (fold_left index_entry es m)) <->
                 In v (dict_keys m) \/ exists e, In e es /\ carries v e.
Proof.
  induction es as [|e es IH]; intros m; simpl.
  - split; [auto|]. intros v. split; [auto|].
    intros [H | [e [[] _]]]. exact H.
  - destruct (index_keys_entry e (identifiers e) m) as [Hn1 Hi1].
    destruct (IH (index_entry m e)) as [Hn2 Hi2].
    split; [auto|]. intros v. rewrite Hi2. unfold index_entry at 1.
    rewrite Hi1. unfold carries. split.
    + intros [[H | H] | [e' [H1 H2]]]; [auto | right; exists e; auto |].
      right. exists e'. auto.
    + intros [H | [e' [[<- | H1] H2]]]; [auto | auto |].
      right. exists e'. auto.
Qed.

(** X10.  After any run of documents parsed by one engine, the list of all
    users holds each identifier value once, and a value is in it exactly
    when some parsed entry carries it. *)
Theorem all_users_spec (docs : list str) (v : str) :
  NoDup (get_all_users (parse_all docs))
  /\ (In v (get_all_users (parse_all docs)) <->
      exists e k, In e (all_entries docs) /\ In (k, v) (identifiers e))
  /\ Statistics.unique_users (get_statistics (parse_all docs)) =
     length (get_all_users (parse_all docs)).
Proof.
  unfold get_all_users. simpl. rewrite parse_all_sessions.
  destruct (index_keys_all (all_entries docs) []) as [Hn Hi].
  split; [apply Hn; constructor|]. split.
  - rewrite Hi. simpl. split.
    + intros [[] | [e [He [k [Hk _]]]]]. eauto.
    + intros [e [k [He Hk]]]. right. exists e. split; [exact He|].
      exists k. split; [exact Hk|].
      pose proof (all_entries_parsed docs) as Hp.
      rewrite Forall_forall in Hp. destruct (Hp e He) as [idx [line ->]].
      pose proof (identifiers_truthy line) as Ht.
      rewrite Forall_forall in Ht. specialize (Ht _ Hk).
      apply truthy_iff in Ht. exact Ht.
  - unfold dict_keys. rewrite length_map. reflexivity.
Qed.

Lemma dict_upd_in (K V : Type) (eqb : K -> K -> bool)
    (eqb_eq : forall a b, eqb a b = true <-> a = b)
    (k k' : K) (x : V) (f : option V -> V) (d : dict K V) :
  In (k', x) (dict_upd eqb k f d) ->
  In (k', x) d
  \/ (k' = k /\ (x = f None \/ exists y, In (k, y) d /\ x = f (Some y))).
Proof.
  induction d as [|[k0 v] d IH]; simpl.
  - intros [H | []]. inversion H; subst. auto.
  - destruct (eqb k0 k) eqn:E; simpl.
    + apply eqb_eq in E. subst k0. intros [H | H]; [|auto].
      inversion H; subst. right. split; [reflexivity|]. right. eauto.
    + intros [H | H]; [auto|]. apply IH in H.
      destruct H as [H | [-> [H | [y [H1 H2]]]]]; [auto | auto |].
      right. split; [reflexivity|]. right. eauto.
Qed.

Lemma index_ok_append (m : dict str (list LogEntry)) (v : str) (e : LogEntry) :
  index_ok m -> carries v e -> index_ok (sessions_append v e m).
Proof.
  intros Hm Hc v' b Hin. unfold sessions_append in Hin.
  apply (@dict_upd_in _ _ _ str_eqb_eq) in Hin.
  destruct Hin as [H | [-> [-> | [y [Hy ->]]]]].
  - apply Hm. exact H.
  - split; [discriminate | repeat constructor; exact Hc].
  - destruct (Hm _ _ Hy) as [_ Hf]. split.
    + destruct y; discriminate.
    + apply Forall_app. split; [exact Hf | repeat constructor; exact Hc].
Qed.

Lemma index_ok_entry (e : LogEntry) (ids : list (kind * str)) :
  incl ids (identifiers e) ->
  forall m,
    index_ok m ->
    index_ok (fold_left
                (fun m kv =>
                   if truthy_str (snd kv) then sessions_append (snd kv) e m
                   else m) ids m).
Proof.
  induction ids as [|[k v] ids IH]; intros Hincl m Hm; simpl; [exact Hm|].
  apply IH; [intros x Hx; apply Hincl; right; exact Hx|].
  destruct (truthy_str v) eqn:Ev; [|exact Hm].
  apply index_ok_append; [exact Hm|]. exists k. split.
  - apply Hincl. left. reflexivity.
  - apply truthy_iff. exact Ev.
Qed.

Lemma index_ok_all (docs : list str) :
  index_ok (user_sessions (parse_all docs)).
Proof.
  rewrite parse_all_sessions.
  assert (H : forall es m, index_ok m -> index_ok (fold_left index_entry es m)).
  { induction es as [|e es IH]; intros m Hm; simpl; [exact Hm|].
    apply IH. unfold index_entry. apply index_ok_entry; [|exact Hm].
    apply incl_refl. }
  apply H. intros v b [].
Qed.

Lemma contains_refl (a : str) : contains a a = true.
Proof.
  apply contains_spec. exists [], []. rewrite app_nil_r. reflexivity.
Qed.

Lemma carries_matches (v : str) (e : LogEntry) :
  carries v e -> entry_matches v e = true.
Proof.
  intros [k [Hin Hv]]. unfold entry_matches. apply existsb_exists.
  exists (k, v). split; [exact Hin|]. unfold value_matches. simpl.
  apply truthy_iff in Hv. rewrite Hv, contains_refl. reflexivity.
Qed.

Lemma known_user_collected (docs : list str) (u : str) :
  In u (get_all_users (parse_all docs)) ->
  collect_journey (parse_all docs) u <> [].
Proof.
  unfold get_all_users, dict_keys. intros H. apply in_map_iff in H.
  destruct H as [[u' b] [Hu Hin]]. simpl in Hu. subst u'.
  destruct (index_ok_all docs _ _ Hin) as [Hb Hf].
  destruct b as [|e b]; [contradiction|].
  inversion Hf as [|e' b' He Hb']; subst.
  assert (Hc : In e (collect_journey (parse_all docs) u)).
  { unfold collect_journey. apply in_flat_map. exists (e :: b). split.
    - unfold dict_values. apply in_map_iff. exists (u, e :: b). auto.
    - apply filter_In. split; [left; reflexivity | apply carries_matches, He]. }
  intros Hnil. rewrite Hnil in Hc. contradiction.
Qed.

(** X11.  Every user listed by [get_all_users] has a journey: the journey
    of a listed identifier value is never empty, so [find_error_sequence]
    gives a result for it (the caller in the agent indexes that result
    without a test). *)
Theorem known_user_has_journey (docs : list str) (u : str) :
  In u (get_all_users (parse_all docs)) ->
  get_user_journey (parse_all docs) u <> []
  /\ find_error_sequence (parse_all docs) u <> None.
Proof.
  intros H. apply known_user_collected in H.
  assert (Hj : get_user_journey (parse_all docs) u <> []).
  { unfold get_user_journey. intros Hnil.
    pose proof (sort_by_perm sort_key (collect_journey (parse_all docs) u))
      as Hp.
    rewrite Hnil in Hp. apply Permutation_nil in Hp. contradiction. }
  split; [exact Hj|]. unfold find_error_sequence.
  destruct (get_user_journey (parse_all docs) u); [contradiction|discriminate].
Qed.

Lemma known_user_has_journey_witness :
  get_user_journey (parse_all [one_failed_call; one_failed_call])
    (lit "abc123") <> []
  /\ find_error_sequence (parse_all [one_failed_call; one_failed_call])
       (lit "abc123") <> None.
Proof.
  apply (@known_user_has_journey [one_failed_call; one_failed_call]
           (lit "abc123")).
  vm_compute. left. reflexivity.
Defined.

(** ** The size of a journey *)

Lemma collect_append (p : LogEntry -> bool) (v : str) (e : LogEntry)
    (m : dict str (list LogEntry)) :
  length (flat_map (fun logs => filter p logs)
            (dict_values (sessions_append v e m))) =
  length (flat_map (fun logs => filter p logs) (dict_values m))
  + (if p e then 1 else 0).
Proof.
  unfold sessions_append, dict_values.
  induction m as [|[k b] m IH]; [simpl; destruct (p e); reflexivity|].
  simpl in IH |- *.
  destruct (str_eqb k v); simpl in IH |- *; rewrite !length_app.
  - rewrite filter_app, length_app. simpl. destruct (p e); simpl; lia.
  - rewrite IH. lia.
Qed.

Lemma collect_entry (p : LogEntry -> bool) (e : LogEntry)
    (ids : list (kind * str)) :
  forall m,
    length (flat_map (fun logs => filter p logs)
              (dict_values
                 (fold_left
                    (fun m kv =>
                       if truthy_str (snd kv)
                       then sessions_append (snd kv) e m else m) ids m))) =
    length (flat_map (fun logs => filter p logs) (dict_values m))
    + (if p e
       then count_if (fun kv => truthy_str (snd kv)) ids
       else 0).
Proof.
  unfold count_if. induction ids as [|[k v] ids IH]; intros m; simpl.
  - destruct (p e); lia.
  - rewrite IH. destruct (truthy_str v); simpl.
    + rewrite collect_append. destruct (p e); simpl; lia.
    + reflexivity.
Qed.

Lemma collect_all (p : LogEntry -> bool) (es : list LogEntry) :
  Forall parsed_entry es ->
  forall m,
    length (flat_map (fun logs => filter p logs)
              (dict_values (fold_left index_entry es m))) =
    length (flat_map (fun logs => filter p logs) (dict_values m))
    + list_sum (map (fun e => length (identifiers e)) (filter p es)).
Proof.
  induction 1 as [|e es He Hes IH]; intros m; simpl; [lia|].
  rewrite IH. unfold index_entry. rewrite collect_entry.
  assert (Hc : count_if (fun kv => truthy_str (snd kv)) (identifiers e) =
               length (identifiers e)).
  { destruct He as [idx [line ->]]. simpl. unfold count_if.
    rewrite forallb_filter_id; [reflexivity|].
    apply forallb_forall. pose proof (identifiers_truthy line) as Ht.
    rewrite Forall_forall in Ht. exact Ht. }
  rewrite Hc. destruct (p e); simpl; lia.
Qed.

(** X12.  In a journey an entry is listed once for each identifier it
    has: the length of a journey, which [find_error_sequence] reports as
    total_requests, is the sum of the numbers of identifiers of the
    matching entries. *)
Theorem journey_length (docs : list str) (query : str) :
  length (get_user_journey (parse_all docs) query) =
  list_sum (map (fun e => length (identifiers e))
              (filter (entry_matches query) (all_entries docs)))
  /\ match find_error_sequence (parse_all docs) query with
     | Some r =>
         ErrorSequence.total_requests r =
         list_sum (map (fun e => length (identifiers e))
                     (filter (entry_matches query) (all_entries docs)))
     | None => True
     end.
Proof.
  assert (H : length (get_user_journey (parse_all docs) query) =
              list_sum (map (fun e => length (identifiers e))
                          (filter (entry_matches query) (all_entries docs)))).
  { unfold get_user_journey.
    rewrite (Permutation_length (sort_by_perm sort_key _)).
    unfold collect_journey. rewrite parse_all_sessions.
    rewrite (collect_all _ (all_entries_parsed docs)). reflexivity. }
  split; [exact H|]. unfold find_error_sequence.
  destruct (get_user_journey (parse_all docs) query) as [|e l] eqn:E;
    [exact I|].
  rewrite sequence_fold. simpl. exact H.
Qed.

(** ** The parts of an error sequence *)

Lemma filter_partition_length (A : Type) (p : A -> bool) (l : list A) :
  length (filter (fun x => negb (p x)) l) + length (filter p l) = length l.
Proof.
  induction l as [|x l IH]; simpl; [reflexivity|].
  destruct (p x); simpl; lia.
Qed.

Lemma apis_of_length (l : list LogEntry) : length (apis_of l) <= length l.
Proof.
  unfold apis_of. induction l as [|e l IH]; simpl; [lia|].
  destruct (api e); simpl; lia.
Qed.

(** X13.  In the result of [find_error_sequence] every request of the
    journey is either successful or failed, so total_requests is the sum
    of the two counts; first_error is absent exactly when no request
    failed and is otherwise the head of the failed requests; and there are
    no more error APIs than failed requests. *)
Theorem error_sequence_parts (self : LogProcessor) (query : str) :
  match find_error_sequence self query with
  | None => True
  | Some r =>
      ErrorSequence.total_requests r =
      length (ErrorSequence.successful_requests r)
      + length (ErrorSequence.failed_requests r)
      /\ ErrorSequence.first_error r =
         hd_error (ErrorSequence.failed_requests r)
      /\ (ErrorSequence.first_error r = None <->
          ErrorSequence.failed_requests r = [])
      /\ length (ErrorSequence.error_apis r)
         <= length (ErrorSequence.failed_requests r)
      /\ Permutation (get_user_journey self query)
           (ErrorSequence.successful_requests r
            ++ ErrorSequence.failed_requests r)
  end.
Proof.
  unfold find_error_sequence.
  destruct (get_user_journey self query) as [|e l] eqn:E; [exact I|].
  rewrite sequence_fold. cbn [ErrorSequence.total_requests
    ErrorSequence.successful_requests ErrorSequence.failed_requests
    ErrorSequence.first_error ErrorSequence.error_apis app].
  split; [symmetry; apply filter_partition_length|].
  split; [reflexivity|]. split; [|split].
  - destruct (filter is_failed (e :: l)); simpl; split; congruence.
  - apply apis_of_length.
  - generalize (e :: l). intros l0. induction l0 as [|x l0 IH]; simpl;
      [constructor|].
    destruct (is_failed x); simpl.
    + apply Permutation_cons_app. exact IH.
    + constructor. exact IH.
Qed.

(** ** Totals of the API summary *)

Lemma dict_upd_sum (K V : Type) (eqb : K -> K -> bool) (g : V -> nat)
    (k : K) (f : option V -> V) (d : dict K V) :
  (forall o, g (f o) = match o with Some v => g v | None => 0 end + 1) ->
  list_sum (map g (dict_values (dict_upd eqb k f d))) =
  list_sum (map g (dict_values d)) + 1.
Proof.
  intros Hf. unfold dict_values. induction d as [|[k' v] d IH]; simpl.
  - rewrite (Hf None). lia.
  - destruct (eqb k' k); simpl.
    + rewrite (Hf (Some v)). lia.
    + rewrite IH. lia.
Qed.

Lemma dict_upd_forall (K V : Type) (eqb : K -> K -> bool) (P : V -> Prop)
    (k : K) (f : option V -> V) (d : dict K V) :
  P (f None) -> (forall v, P v -> P (f (Some v))) ->
  Forall P (dict_values d) ->
  Forall P (dict_values (dict_upd eqb k f d)).
Proof.
  intros H0 H1. unfold dict_values.
  induction d as [|[k' v] d IH]; simpl; intros H.
  - repeat constructor. exact H0.
  - inversion H; subst. destruct (eqb k' k); simpl; constructor; auto.
Qed.

(** X14.  In the API summary of any engine state the keys are distinct,
    the total_calls of all keys add up to the number of entries of the
    API-call list that have an API call, and for every key successful and
    failed together do not exceed total_calls and there are no more
    recorded exception types than failed calls. *)
Theorem api_summary_totals (self : LogProcessor) :
  let summary := get_api_summary self in
  NoDup (dict_keys summary)
  /\ list_sum (map ApiStats.total_calls (dict_values summary)) =
     count_if has_api (api_calls self)
  /\ Forall
       (fun st =>
          ApiStats.successful st + ApiStats.failed st <= ApiStats.total_calls st
          /\ length (ApiStats.errors st) <= ApiStats.failed st)
       (dict_values summary).
Proof.
  unfold get_api_summary, count_if.
  assert (H : forall calls acc,
             let summary :=
               fold_left
                 (fun api_stats log =>
                    match api log with
                    | Some a =>
                        dict_upd str_eqb (endpoint_key a) (api_stats_step log)
                          api_stats
                    | None => api_stats
                    end) calls acc in
             (NoDup (dict_keys acc) -> NoDup (dict_keys summary))
             /\ list_sum (map ApiStats.total_calls (dict_values summary)) =
                list_sum (map ApiStats.total_calls (dict_values acc))
                + length (filter has_api calls)
             /\ (Forall
                   (fun st =>
                      ApiStats.successful st + ApiStats.failed st
                      <= ApiStats.total_calls st
                      /\ length (ApiStats.errors st) <= ApiStats.failed st)
                   (dict_values acc) ->
                 Forall
                   (fun st =>
                      ApiStats.successful st + ApiStats.failed st
                      <= ApiStats.total_calls st
                      /\ length (ApiStats.errors st) <= ApiStats.failed st)
                   (dict_values summary))).
  { induction calls as [|e calls IH]; intros acc; simpl.
    - split; [auto|]. split; [lia | auto].
    - unfold has_api at 1. destruct (api e) as [a|] eqn:Ea; [|apply IH].
      destruct (IH (dict_upd str_eqb (endpoint_key a) (api_stats_step e) acc))
        as [Hn [Hs Hf]].
      split; [|split].
      + intros Hacc. apply Hn.
        apply (@dict_upd_keys_nodup _ _ str_eqb_eq). exact Hacc.
      + rewrite Hs, dict_upd_sum; [simpl; lia|].
        intros [[total ok ko errs]|]; unfold api_stats_step; simpl;
          destruct (status_lt_400 e); simpl; try lia;
          destruct (has_error e || status_ge_400 e); simpl; lia.
      + intros Hacc. apply Hf. apply dict_upd_forall; [| |exact Hacc].
        * unfold api_stats_step. simpl.
          destruct (status_lt_400 e); simpl; [lia|].
          destruct (has_error e || status_ge_400 e); simpl; [|lia].
          destruct (truthy_exception e); simpl; lia.
        * intros [total ok ko errs] [H1 H2]. simpl in H1, H2.
          unfold api_stats_step. simpl.
          destruct (status_lt_400 e); simpl; [lia|].
          destruct (has_error e || status_ge_400 e); simpl; [|lia].
          destruct (truthy_exception e); simpl; [rewrite length_app; simpl|];
            lia. }
  destruct (H (api_calls self) []) as [Hn [Hs Hf]].
  split; [apply Hn; constructor|]. split; [rewrite Hs; reflexivity|].
  apply Hf. constructor.
Qed.

(** ** Blank documents *)

Lemma split_lines_spaces (content : str) :
  forallb isspace content = true ->
  Forall (fun line => forallb isspace line = true) (split_lines content).
Proof.
  induction content as [|c content IH]; simpl; intros H.
  - repeat constructor.
  - apply andb_true_iff in H. destruct H as [Hc H]. specialize (IH H).
    destruct (chr_eqb c LF); [constructor; [reflexivity | exact IH]|].
    destruct (split_lines content) as [|l ls]; [repeat constructor|].
    + simpl. rewrite Hc. reflexivity.
    + inversion IH; subst. constructor; [|assumption].
      simpl. rewrite Hc. assumption.
Qed.

Lemma entries_from_blank (lines : list str) :
  Forall (fun line => forallb isspace line = true) lines ->
  forall idx, entries_from idx lines = [].
Proof.
  induction 1 as [|line lines Hl Hls IH]; intros idx; simpl; [reflexivity|].
  apply strip_nil_iff in Hl. rewrite Hl. simpl. apply IH.
Qed.

(** X15.  A document made of white space only (blank lines) gives no
    entries and leaves the error list, the API-call list and the index of
    the engine as they were; for a fresh engine all statistics are zero
    and there are no users. *)
Theorem blank_document (self : LogProcessor) (content : str) :
  forallb isspace content = true ->
  parse_logs self content =
  (mkLogProcessor [] (user_sessions self) (errors self) (api_calls self), [])
  /\ get_statistics (fst (parse_logs __init__ content)) =
     Statistics.mk 0 0 0 0 0 []
  /\ get_all_users (fst (parse_logs __init__ content)) = [].
Proof.
  intros H.
  assert (He : entries_from 0 (split_lines content) = [])
    by (apply entries_from_blank, split_lines_spaces, H).
  rewrite !parse_logs_spec, He. simpl. rewrite !app_nil_r.
  repeat split.
Qed.

Lemma blank_document_witness :
  parse_logs __init__ [ch " "; LF; LF; ch " "] =
  (mkLogProcessor [] [] [] [], []).
Proof.
  apply (proj1 (@blank_document __init__ [ch " "; LF; LF; ch " "] eq_refl)).
Defined.

(** * Properties of the agent's choices *)

(** ** The descending stable sort *)

Section SortDescFacts.

Variable T : Type.
Variable key : T -> nat.









End SortDescFacts.



(** ** The user named by a query *)

Lemma user_by_pattern_known (pats : list regex) (query_lower : str)
    (users : list str) (u : str) :
  user_by_pattern pats query_lower users = Some u -> In u users.
Proof.
  induction pats as [|p pats IH]; simpl; [discriminate|].
  destruct (re_search p query_lower false) as [m|]; [|exact IH].
  destruct (find (fun user => contains (group query_lower m 1) (str_lower user))
              users) as [u'|] eqn:E; [|exact IH].
  intros H. inversion H; subst u'. apply find_some in E. tauto.
Qed.

Lemma extract_user_known (query : str) (self : LogProcessor) (u : str) :
  _extract_user_from_query query self = Some u -> In u (get_all_users self).
Proof.
  unfold _extract_user_from_query.
  destruct (find (fun user => contains (str_lower user) (str_lower query))
              (get_all_users self)) as [u'|] eqn:E.
  - intros H. inversion H; subst u'. apply find_some in E. tauto.
  - apply user_by_pattern_known.
Qed.

Lemma find_first (A : Type) (p : A -> bool) (pre post : list A) (x : A) :
  (forall y, In y pre -> p y = false) -> p x = true ->
  find p (pre ++ x :: post) = Some x.
Proof.
  induction pre as [|y pre IH]; intros Hpre Hx; simpl.
  - rewrite Hx. reflexivity.
  - rewrite (Hpre y) by (left; reflexivity). apply IH; [|exact Hx].
    intros z Hz. apply Hpre. right. exact Hz.
Qed.

(** X17.  [_extract_user_from_query] never invents a user: its answer is
    one of the listed users; the first listed user whose name occurs in
    the query, up to letter case, is the answer whatever the patterns
    match; and it answers nothing only when no listed user is named in the
    query. *)
Theorem extract_user_spec (query : str) (self : LogProcessor) :
  match _extract_user_from_query query self with
  | Some u => In u (get_all_users self)
  | None =>
      forall u, In u (get_all_users self) ->
                ~ occurs (str_lower u) (str_lower query)
  end
  /\ forall pre u post,
       get_all_users self = pre ++ u :: post ->
       occurs (str_lower u) (str_lower query) ->
       (forall u', In u' pre -> ~ occurs (str_lower u') (str_lower query)) ->
       _extract_user_from_query query self = Some u.
Proof.
  split.
  - destruct (_extract_user_from_query query self) as [u|] eqn:E.
    + apply extract_user_known in E. exact E.
    + unfold _extract_user_from_query in E.
      destruct (find (fun user => contains (str_lower user) (str_lower query))
                  (get_all_users self)) as [u'|] eqn:F; [discriminate|].
      intros u Hu Ho. apply contains_spec in Ho.
      rewrite (find_none _ _ F u Hu) in Ho. discriminate.
  - intros pre u post Hl Ho Hpre. unfold _extract_user_from_query.
    rewrite Hl, find_first; [reflexivity | | apply contains_spec, Ho].
    intros y Hy.
    destruct (contains (str_lower y) (str_lower query)) eqn:E; [|reflexivity].
    apply contains_spec in E. exfalso. apply (Hpre y Hy). exact E.
Qed.

Lemma extract_user_spec_witness :
  _extract_user_from_query (lit "What happened to ABC123 today?")
    (parse_all [one_failed_call]) = Some (lit "abc123").
Proof.
  apply (proj2 (extract_user_spec (lit "What happened to ABC123 today?")
                  (parse_all [one_failed_call]))
           [] (lit "abc123") []).
  - vm_compute. reflexivity.
  - apply contains_spec. vm_compute. reflexivity.
  - intros u' [].
Defined.

(** X18.  The user that [_extract_user_from_query] finds always has an
    error sequence: [_prepare_analysis_context] reads the fields of the
    result of [find_error_sequence] for that user without a test, and the
    result is never absent. *)
Theorem extracted_user_has_sequence (docs : list str) (query u : str) :
  _extract_user_from_query query (parse_all docs) = Some u ->
  get_user_journey (parse_all docs) u <> []
  /\ exists r,
       find_error_sequence (parse_all docs) u = Some r
       /\ 0 < ErrorSequence.total_requests r.
Proof.
  intros H. apply extract_user_known, known_user_collected in H.
  assert (Hj : get_user_journey (parse_all docs) u <> []).
  { unfold get_user_journey. intros Hnil.
    pose proof (sort_by_perm sort_key (collect_journey (parse_all docs) u))
      as Hp.
    rewrite Hnil in Hp. apply Permutation_nil in Hp. contradiction. }
  split; [exact Hj|]. unfold find_error_sequence.
  destruct (get_user_journey (parse_all docs) u) as [|e l];
    [contradiction|].
  eexists. split; [reflexivity|]. rewrite sequence_fold. simpl. lia.
Qed.

Lemma extracted_user_has_sequence_witness :
  get_user_journey (parse_all [one_failed_call]) (lit "abc123") <> []
  /\ exists r,
       find_error_sequence (parse_all [one_failed_call]) (lit "abc123") = Some r
       /\ 0 < ErrorSequence.total_requests r.
Proof.
  apply (@extracted_user_has_sequence [one_failed_call]
           (lit "errors for user abc") (lit "abc123")).
  vm_compute. reflexivity.
Defined.

(** ** The window of recent entries *)

Lemma level_in_names (line : str) : In (_extract_log_level line) level_names.
Proof.
  unfold _extract_log_level.
  destruct (re_search patterns.log_level line true) as [m|] eqn:E.
  - apply level_of_match in E. destruct E as [w [Hin [-> _]]]. exact Hin.
  - simpl. auto.
Qed.

Lemma parse_all_logs_parsed (docs : list str) :
  Forall parsed_entry (logs (parse_all docs)).
Proof.
  apply parse_all_ind with (P := fun self => Forall parsed_entry (logs self)).
  - constructor.
  - intros self content _. rewrite parse_logs_spec. simpl.
    apply entries_from_parsed.
Qed.

Lemma skipn_incl (A : Type) (n : nat) (l : list A) (x : A) :
  In x (skipn n l) -> In x l.
Proof.
  intros H. rewrite <- (firstn_skipn n l). apply in_or_app. right. exact H.
Qed.

Lemma recent_logs_incl (self : LogProcessor) (max_logs : Z) (e : LogEntry) :
  In e (recent_logs self max_logs) -> In e (logs self).
Proof.
  unfold recent_logs, slice_from.
  destruct (max_logs <? Z.of_nat (length (logs self)))%Z; [|auto].
  destruct (- max_logs <? 0)%Z; apply skipn_incl.
Qed.

(** X19.  The window of recent entries of [prepare_context_for_ai] holds,
    for a positive [max_logs], the last [max_logs] entries, or all entries
    when there are fewer; for [max_logs] 0 it holds all entries, not none;
    and each line rendered for an entry of a parsed document has at most
    212 characters, the line being cut at 200. *)
Theorem recent_logs_window (docs : list str) (max_logs : Z) :
  let self := parse_all docs in
  let n := Nat.min (Z.to_nat max_logs) (length (logs self)) in
  ((0 < max_logs)%Z ->
   recent_logs self max_logs = skipn (length (logs self) - n) (logs self)
   /\ length (recent_logs self max_logs) = n)
  /\ recent_logs self 0 = logs self
  /\ Forall (fun line => length line <= 212) (recent_lines self max_logs).
Proof.
  intros self n. split; [|split].
  - intros Hpos. subst n. unfold recent_logs, slice_from.
    destruct (Z.ltb_spec max_logs (Z.of_nat (length (logs self)))) as [H | H].
    + replace (- max_logs <? 0)%Z with true
        by (symmetry; apply Z.ltb_lt; lia).
      replace (Z.to_nat (Z.max 0 (Z.of_nat (length (logs self)) + - max_logs)))
        with (length (logs self)
              - Nat.min (Z.to_nat max_logs) (length (logs self))) by lia.
      split; [reflexivity|]. rewrite length_skipn. lia.
    + replace (Nat.min (Z.to_nat max_logs) (length (logs self)))
        with (length (logs self)) by lia.
      rewrite Nat.sub_diag. simpl. auto.
  - unfold recent_logs, slice_from. simpl.
    destruct (0 <? Z.of_nat (length (logs self)))%Z; reflexivity.
  - unfold recent_lines. apply Forall_forall. intros line Hline.
    apply in_map_iff in Hline. destruct Hline as [e [<- He]].
    apply recent_logs_incl in He.
    pose proof (parse_all_logs_parsed docs) as Hp.
    rewrite Forall_forall in Hp. destruct (Hp e He) as [idx [l ->]].
    cbn [level raw make_entry]. rewrite !length_app, length_firstn.
    change (length [LF]) with 1. change (length (lit "[")) with 1.
    change (length (lit "] ")) with 2.
    assert (Hl : length (_extract_log_level l) <= 8).
    { pose proof (level_in_names l) as Hl. simpl in Hl.
      destruct Hl as [<- | [<- | [<- | [<- | [<- | [<- | [<- | []]]]]]]];
        simpl; lia. }
    lia.
Qed.

Lemma recent_logs_window_witness :
  recent_logs (parse_all [warn_and_warning]) 1 =
  skipn (length (logs (parse_all [warn_and_warning]))
         - Nat.min (Z.to_nat 1) (length (logs (parse_all [warn_and_warning]))))
    (logs (parse_all [warn_and_warning]))
  /\ length (recent_logs (parse_all [warn_and_warning]) 1) =
     Nat.min (Z.to_nat 1) (length (logs (parse_all [warn_and_warning]))).
Proof.
  apply (proj1 (recent_logs_window [warn_and_warning] 1)). lia.
Defined.
